(** * External pull-request viewer: fetch, filter and excluded-author editing

    A shallow embedding of the logic of the [HomeScreen] component
    (paginated fetch of open pull requests, the author filter, and the
    editor of the excluded-author list) together with the static
    configuration of [config.ts]. *)

From Stdlib Require Import Ascii String.
From stdpp Require Import base decidable numbers list pretty.

Local Open Scope N_scope.

(** ** JavaScript strings

    A JavaScript string is a finite sequence of UTF-16 code units.  The
    literals of the program are all ASCII; [lit] embeds them. *)

Definition jsstring := list N.

Definition lit (s : string) : jsstring :=
  (λ a, N_of_ascii a) <$> list_ascii_of_string s.

(** [Number.prototype.toString] on a non-negative integer. *)
Definition toString (n : N) : jsstring := lit (pretty n).

(** A string is truthy exactly when it is not empty. *)
Definition truthy (s : jsstring) : bool := bool_decide (s ≠ []).

(** [Array.prototype.includes] on an array of strings. *)
Definition includes (l : list jsstring) (x : jsstring) : bool :=
  bool_decide (x ∈ l).

(** The code units removed by [String.prototype.trim]: the WhiteSpace and
    LineTerminator productions of ECMAScript (TAB, LF, VT, FF, CR, SP,
    NBSP, U+1680, U+2000..U+200A, U+2028, U+2029, U+202F, U+205F, U+3000
    and the byte order mark U+FEFF). *)
Definition isWhiteSpace (c : N) : bool :=
  (9 <=? c) && (c <=? 13) || (c =? 32) || (c =? 160) || (c =? 5760)
  || (8192 <=? c) && (c <=? 8202) || (c =? 8232) || (c =? 8233)
  || (c =? 8239) || (c =? 8287) || (c =? 12288) || (c =? 65279).

Fixpoint trimStart (s : jsstring) : jsstring :=
  match s with
  | [] => []
  | c :: s' => if isWhiteSpace c then trimStart s' else s
  end.

Definition trimEnd (s : jsstring) : jsstring :=
  reverse (trimStart (reverse s)).

Definition trim (s : jsstring) : jsstring := trimEnd (trimStart s).

(** [s] occurs in [t] as a contiguous substring. *)
Definition contains (t s : jsstring) : Prop :=
  ∃ pre post, t = pre ++ s ++ post.

(** ** Data model *)

Module User.
Record t := mk { login : jsstring; avatar_url : jsstring }.
End User.

Module Label.
Record t := mk { name : jsstring; color : jsstring }.
End Label.

Module PullRequest.
Record t := mk {
  id : Z;
  number : Z;
  title : jsstring;
  user : User.t;
  html_url : jsstring;
  created_at : jsstring;
  updated_at : jsstring;
  state : jsstring;
  labels : list Label.t;
  assignees : list User.t;
  requested_reviewers : list User.t
}.
End PullRequest.

(** ** Configuration ([config.ts]) *)

Module Config.
Record repo_t := mkRepo { owner : jsstring; name : jsstring }.
Record t := mk {
  repo : repo_t;
  excludedAuthors : list jsstring;
  perPage : N;
  maxPages : N
}.
End Config.

Definition config : Config.t :=
  {| Config.repo := {| Config.owner := lit "expo"; Config.name := lit "expo" |};
     Config.excludedAuthors := lit <$>
       [ "jonsamp"; "HubertBer"; "douglowder"; "vonovak"; "Kudo"; "tsapeta";
         "kitten"; "intergalacticspacehighway"; "Wenszel"; "hassankhan";
         "jakex7"; "behenate"; "aleqsio"; "alanjhughes"; "Ubax";
         "gabrieldonadel"; "amandeepmittal"; "lukmccall"; "chrfalch";
         "kadikraman"; "sjchmiela"; "byCedric"; "EvanBacon";
         "dependabot[bot]"; "krystofwoldrich"; "hirbod"; "brentvatne";
         "quinlanj"; "kosmydel"; "barthap" ]%string;
     Config.perPage := 100;
     Config.maxPages := 5 |}.

(** ** Component state

    The seven [useState] cells of [HomeScreen]. *)

Record HomeScreen := mkHomeScreen {
  prs : list PullRequest.t;
  allPrs : list PullRequest.t;
  loading : bool;
  error : option jsstring;
  excludedAuthors : list jsstring;
  newAuthor : jsstring;
  showSettings : bool
}.

Definition initialState : HomeScreen :=
  {| prs := []; allPrs := []; loading := true; error := None;
     excludedAuthors := Config.excludedAuthors config;
     newAuthor := []; showSettings := false |}.

Definition setPrs (v : list PullRequest.t) (st : HomeScreen) : HomeScreen :=
  {| prs := v; allPrs := allPrs st; loading := loading st; error := error st;
     excludedAuthors := excludedAuthors st; newAuthor := newAuthor st;
     showSettings := showSettings st |}.

Definition setAllPrs (v : list PullRequest.t) (st : HomeScreen) : HomeScreen :=
  {| prs := prs st; allPrs := v; loading := loading st; error := error st;
     excludedAuthors := excludedAuthors st; newAuthor := newAuthor st;
     showSettings := showSettings st |}.

Definition setLoading (v : bool) (st : HomeScreen) : HomeScreen :=
  {| prs := prs st; allPrs := allPrs st; loading := v; error := error st;
     excludedAuthors := excludedAuthors st; newAuthor := newAuthor st;
     showSettings := showSettings st |}.

Definition setError (v : option jsstring) (st : HomeScreen) : HomeScreen :=
  {| prs := prs st; allPrs := allPrs st; loading := loading st; error := v;
     excludedAuthors := excludedAuthors st; newAuthor := newAuthor st;
     showSettings := showSettings st |}.

Definition setExcludedAuthors (v : list jsstring) (st : HomeScreen)
  : HomeScreen :=
  {| prs := prs st; allPrs := allPrs st; loading := loading st;
     error := error st; excludedAuthors := v; newAuthor := newAuthor st;
     showSettings := showSettings st |}.

Definition setNewAuthor (v : jsstring) (st : HomeScreen) : HomeScreen :=
  {| prs := prs st; allPrs := allPrs st; loading := loading st;
     error := error st; excludedAuthors := excludedAuthors st;
     newAuthor := v; showSettings := showSettings st |}.

(** ** Filter and excluded-author editor *)

(** [allPrs.filter(pr => !excludedAuthors.includes(pr.user.login))] *)
Definition filterPRs (st : HomeScreen) : HomeScreen :=
  let filteredPrs :=
    filter (λ pr, ¬ includes (excludedAuthors st)
                      (User.login (PullRequest.user pr)))
           (allPrs st) in
  setPrs filteredPrs st.

Definition addExcludedAuthor (st : HomeScreen) : HomeScreen :=
  let trimmedAuthor := trim (newAuthor st) in
  if truthy trimmedAuthor && negb (includes (excludedAuthors st) trimmedAuthor)
  then setNewAuthor [] (setExcludedAuthors
                          (excludedAuthors st ++ [trimmedAuthor]) st)
  else st.

Definition removeExcludedAuthor (author : jsstring) (st : HomeScreen)
  : HomeScreen :=
  setExcludedAuthors (filter (λ a, a ≠ author) (excludedAuthors st)) st.

(** The text field's [onChangeText] followed by a press on "+". *)
Definition add (s : jsstring) (st : HomeScreen) : HomeScreen :=
  addExcludedAuthor (setNewAuthor s st).

(** A press on the "✕" of a chip. *)
Definition remove (s : jsstring) (st : HomeScreen) : HomeScreen :=
  removeExcludedAuthor s st.

Inductive edit := Add (s : jsstring) | Remove (s : jsstring).

Global Instance edit_eq_dec : EqDecision edit.
Proof. solve_decision. Defined.

Definition applyEdit (st : HomeScreen) (e : edit) : HomeScreen :=
  match e with
  | Add s => add s st
  | Remove s => remove s st
  end.

Definition applyEdits (es : list edit) (st : HomeScreen) : HomeScreen :=
  foldl applyEdit st es.

(** ** Network and execution environment *)

Record Request := mkRequest {
  url : jsstring;
  headers : list (jsstring * jsstring)
}.

(** A thrown value: an instance of [Error] carrying its message, or
    anything else. *)
Inductive thrown := ErrorObject (message : jsstring) | OtherValue.

(** The way a promise settles. *)
Inductive settled (A : Type) := Fulfilled (a : A) | Rejected (e : thrown).
Arguments Fulfilled {A} a.
Arguments Rejected {A} e.

(** What the program reads of a [Response]: [status], [statusText] and
    the promise returned by [json()].  [json] rejects when the body does
    not parse; a body that parses to something other than an array makes
    [push(...data)] throw before any state changes, and is modelled as a
    rejection too. *)
Record Response := mkResponse {
  status : N;
  statusText : jsstring;
  json : settled (list PullRequest.t)
}.

(** [Response.ok]: the status is in the range 200-299. *)
Definition ok (r : Response) : bool :=
  (200 <=? status r) && (status r <=? 299).

(** The environment of one run: [process.env.GITHUB_TOKEN] and the global
    [fetch], which rejects on a transport failure.  A run never issues the
    same request twice (see [pageRequest_inj]), so answering by a function
    of the request loses nothing. *)
Record Env := mkEnv {
  GITHUB_TOKEN : option jsstring;
  fetch : Request → settled Response
}.

(** The state threaded through the asynchronous function: the component
    state as the setters called by [fetchPullRequests] leave it, and a log
    with one entry per page awaited, holding the request issued and that
    state at the time the page is pending.  [fetchPullRequests] changes
    nothing between the [await] of [fetch] and the [await] of [json()], so
    one entry stands for both suspension points of a page.

    The filter effect is not part of [fetchPullRequests] and is not run
    here: the cells it reads ([allPrs], [excludedAuthors]) and [loading]
    and [error] are in these states as in the component, while [prs] keeps
    the value it had before the run.  What the component shows of a state
    [S] once the effect has run is [prs (filterPRs S)]. *)
Record World := mkWorld {
  screen : HomeScreen;
  awaited : list (Request * HomeScreen)
}.

Definition M (A : Type) : Type := World → settled A * World.

Definition ret {A} (a : A) : M A := λ w, (Fulfilled a, w).

Definition bind {A B} (m : M A) (k : A → M B) : M B :=
  λ w, match m w with
       | (Fulfilled a, w') => k a w'
       | (Rejected e, w') => (Rejected e, w')
       end.

Definition throw {A} (e : thrown) : M A := λ w, (Rejected e, w).

Definition await {A} (p : settled A) : M A := λ w, (p, w).

(** A state setter of the component. *)
Definition set (f : HomeScreen → HomeScreen) : M unit :=
  λ w, (Fulfilled tt, {| screen := f (screen w); awaited := awaited w |}).

(** [try { body } catch (err) { handler } finally { finalizer }] *)
Definition try_catch_finally (body : M unit) (handler : thrown → M unit)
    (finalizer : M unit) : M unit :=
  λ w,
    let '(r, w1) := body w in
    let '(r', w2) := match r with
                     | Fulfilled a => (Fulfilled a, w1)
                     | Rejected e => handler e w1
                     end in
    let '(rf, w3) := finalizer w2 in
    (match rf with Fulfilled _ => r' | Rejected e => Rejected e end, w3).

Declare Scope js_scope.
Delimit Scope js_scope with js.
Notation "x <- c ;; k" := (bind c (λ x, k))
  (at level 100, c at next level, right associativity) : js_scope.
Notation "c ;; k" := (bind c (λ _, k))
  (at level 100, right associativity) : js_scope.

(** ** The fetcher *)

Section Fetcher.

Variable cfg : Config.t.
Variable env : Env.

Definition requestUrl (page : N) : jsstring :=
  lit "https://api.github.com/repos/" ++ Config.owner (Config.repo cfg)
  ++ lit "/" ++ Config.name (Config.repo cfg)
  ++ lit "/pulls?state=open&per_page=" ++ toString (Config.perPage cfg)
  ++ lit "&page=" ++ toString page.

Definition requestHeaders : list (jsstring * jsstring) :=
  let headers := [(lit "Accept", lit "application/vnd.github.v3+json")] in
  match GITHUB_TOKEN env with
  | Some token =>
      if truthy token
      then headers ++ [(lit "Authorization", lit "token " ++ token)]
      else headers
  | None => headers
  end.

Definition pageRequest (page : N) : Request :=
  {| url := requestUrl page; headers := requestHeaders |}.

(** [await fetch(url, { headers })]: the request is logged with the
    component state at the time it is pending (see [World]). *)
Definition fetchPage (req : Request) : M Response :=
  λ w, (fetch env req,
        {| screen := screen w; awaited := awaited w ++ [(req, screen w)] |}).

Definition statusError (response : Response) : thrown :=
  ErrorObject (lit "GitHub API error: " ++ toString (status response)
               ++ lit " " ++ statusText response).

(** The [for] loop.  [remaining] counts the values of [page] still within
    [config.maxPages], so [page <= config.maxPages] reads [remaining > 0];
    the result is the local array [fetchedPrs] when the loop is left, by
    [break] or by its condition. *)
Fixpoint forPages (remaining : nat) (page : N)
    (fetchedPrs : list PullRequest.t) : M (list PullRequest.t) :=
  match remaining with
  | O => ret fetchedPrs
  | S remaining' =>
      (response <- fetchPage (pageRequest page) ;;
       if negb (ok response) then throw (statusError response)
       else
         data <- await (json response) ;;
         if (length data =? 0)%nat then ret fetchedPrs
         else
           let fetchedPrs := fetchedPrs ++ data in
           set (setAllPrs fetchedPrs) ;;
           set (setLoading false) ;;
           forPages remaining' (page + 1) fetchedPrs)%js
  end.

(** [err instanceof Error ? err.message : "An error occurred"] *)
Definition errorMessage (err : thrown) : jsstring :=
  match err with
  | ErrorObject message => message
  | OtherValue => lit "An error occurred"
  end.

Definition fetchPullRequests : M unit :=
  try_catch_finally
    (set (setLoading true) ;;
     set (setError None) ;;
     fetchedPrs <- forPages (N.to_nat (Config.maxPages cfg)) 1 [] ;;
     set (setAllPrs fetchedPrs))%js
    (λ err, set (setError (Some (errorMessage err))))
    (set (setLoading false)).

(** One invocation of the fetch from component state [st]. *)
Definition invoke (st : HomeScreen) : World :=
  (fetchPullRequests {| screen := st; awaited := [] |}).2.

(** The requests issued, in order. *)
Definition requests (w : World) : list Request := (awaited w).*1.

(** The states logged during the run, one while each page is pending,
    then the one the run ends in; their [prs] is not yet recomputed by the
    filter effect (see [World]). *)
Definition visible (w : World) : list HomeScreen :=
  (awaited w).*2 ++ [screen w].

(** Page [page] is answered with a success status and the body [data]. *)
Definition answers (page : N) (data : list PullRequest.t) : Prop :=
  ∃ r, fetch env (pageRequest page) = Fulfilled r
       ∧ ok r = true ∧ json r = Fulfilled data.

(** The consecutive pages from [page] on are answered with the bodies
    [ds], in order. *)
Definition servesFrom (page : N) (ds : list (list PullRequest.t)) : Prop :=
  ∀ (i : nat) d, ds !! i = Some d → answers (page + N.of_nat i) d.

(** Pages [1 .. length ds] are answered with the bodies [ds], in order. *)
Definition serves (ds : list (list PullRequest.t)) : Prop :=
  servesFrom 1 ds.

(** The body a request is answered with ([[]] when there is none). *)
Definition bodyOf (req : Request) : list PullRequest.t :=
  match fetch env req with
  | Fulfilled r => match json r with Fulfilled d => d | Rejected _ => [] end
  | Rejected _ => []
  end.

(** Page [page] makes the loop throw [e]: the transport fails, the status
    is not a success, or the body does not parse. *)
Definition fails (page : N) (e : thrown) : Prop :=
  fetch env (pageRequest page) = Rejected e
  ∨ (∃ r, fetch env (pageRequest page) = Fulfilled r
          ∧ ok r = false ∧ e = statusError r)
  ∨ (∃ r, fetch env (pageRequest page) = Fulfilled r
          ∧ ok r = true ∧ json r = Rejected e).

(** The pages [page], [page + 1], ..., [count] of them. *)
Fixpoint pagesFrom (page : N) (count : nat) : list N :=
  match count with
  | O => []
  | S count' => page :: pagesFrom (page + 1) count'
  end.

(** The world while the request of [page] is pending. *)
Definition suspend (w : World) (page : N) : World :=
  {| screen := screen w;
     awaited := awaited w ++ [(pageRequest page, screen w)] |}.

(** The world after [page] resolved with a non-empty body and the local
    array grew to [fetchedPrs]. *)
Definition resume (w : World) (page : N) (fetchedPrs : list PullRequest.t)
  : World :=
  {| screen := setLoading false (setAllPrs fetchedPrs (screen w));
     awaited := awaited w ++ [(pageRequest page, screen w)] |}.

(** The world after the consecutive pages from [page] on resolved with the
    non-empty bodies [ds]. *)
Fixpoint advance (w : World) (page : N) (fetchedPrs : list PullRequest.t)
    (ds : list (list PullRequest.t)) : World :=
  match ds with
  | [] => w
  | d :: ds' =>
      advance (resume w page (fetchedPrs ++ d)) (page + 1) (fetchedPrs ++ d) ds'
  end.

(** The world a run starts its loop in. *)
Definition started (st : HomeScreen) : World :=
  {| screen := setError None (setLoading true st); awaited := [] |}.

End Fetcher.

(** ** Mock endpoints *)

(** An endpoint that answers the request of page [page + i] with the
    [i]-th entry of [script] and everything else with [dflt]. *)
Fixpoint scripted (cfg : Config.t) (script : list (settled Response))
    (dflt : settled Response) (page : N) (req : Request) : settled Response :=
  match script with
  | [] => dflt
  | r :: script' =>
      if decide (url req = requestUrl cfg page) then r
      else scripted cfg script' dflt (page + 1) req
  end.

Definition samplePR (i : nat) : PullRequest.t :=
  {| PullRequest.id := Z.of_nat i; PullRequest.number := Z.of_nat i;
     PullRequest.title := lit "Fix typo";
     PullRequest.user := {| User.login := lit "octocat";
                            User.avatar_url := [] |};
     PullRequest.html_url := []; PullRequest.created_at := [];
     PullRequest.updated_at := []; PullRequest.state := lit "open";
     PullRequest.labels := []; PullRequest.assignees := [];
     PullRequest.requested_reviewers := [] |}.

Definition samplePage (first size : nat) : list PullRequest.t :=
  samplePR <$> seq first size.

Definition okResponse (data : list PullRequest.t) : settled Response :=
  Fulfilled {| status := 200; statusText := lit "OK";
               json := Fulfilled data |}.

Definition errorResponse (code : N) (reason : string) : settled Response :=
  Fulfilled {| status := code; statusText := lit reason;
               json := Rejected (ErrorObject (lit "Unexpected token")) |}.

(** An endpoint without credential that serves [script] from page 1 on
    and fails at the transport level afterwards. *)
Definition mock (script : list (settled Response)) : Env :=
  {| GITHUB_TOKEN := None;
     fetch := scripted config script (Rejected OtherValue) 1 |}.

(** Pages of sizes 100, 100 and 0. *)
Definition threePages : Env :=
  mock [okResponse (samplePage 0 100); okResponse (samplePage 100 100);
        okResponse []].

(** An endpoint whose every page is full. *)
Definition endless : Env :=
  {| GITHUB_TOKEN := None; fetch := λ _, okResponse (samplePage 0 100) |}.

(** Status 403 on page 2. *)
Definition forbiddenOnPage2 : Env :=
  mock [okResponse (samplePage 0 100); errorResponse 403 "Forbidden"].

(** Status 503 on every page. *)
Definition unavailable : Env :=
  {| GITHUB_TOKEN := None;
     fetch := λ _, errorResponse 503 "Service Unavailable" |}.

(** The same endpoint as [threePages], with a credential in the
    environment. *)
Definition withToken : Env :=
  {| GITHUB_TOKEN := Some (lit "ghp_abc"); fetch := fetch threePages |}.

(** The component state left by a first run that got one record on page 1
    and status 403 on page 2, once the filter effect has run. *)
Definition afterFailedRun : HomeScreen :=
  filterPRs
    (screen (invoke config
               (mock [okResponse [samplePR 7]; errorResponse 403 "Forbidden"])
               initialState)).

(** Shows that a page of a concrete endpoint is answered with [data]. *)
Ltac answered_with data :=
  exists {| status := 200; statusText := lit "OK"; json := Fulfilled data |};
  split_and!; vm_compute; reflexivity.


(** ** The filter effect

    [useEffect(() => filterPRs(), [excludedAuthors, allPrs])]: after a
    handler ran, the effect runs when one of the two arrays was replaced.
    [removeExcludedAuthor] always stores a new array; [addExcludedAuthor]
    stores one only when it appends. *)

Definition effectRuns (st : HomeScreen) (e : edit) : bool :=
  match e with
  | Add s =>
      truthy (trim s) && negb (includes (excludedAuthors st) (trim s))
  | Remove _ => true
  end.

Definition handleEdit (st : HomeScreen) (e : edit) : HomeScreen :=
  if effectRuns st e then filterPRs (applyEdit st e) else applyEdit st e.

(** The shown list is the filter of the accumulated one. *)
Definition consistent (st : HomeScreen) : Prop :=
  prs st = prs (filterPRs st).

(** An entry as [addExcludedAuthor] stores them: not empty and without
    surrounding whitespace. *)
Definition tidy (a : jsstring) : Prop := a ≠ [] ∧ trim a = a.

Global Instance tidy_dec a : Decision (tidy a).
Proof. unfold tidy. apply _. Defined.

(** ** Rendering *)

Record Link := mkLink { href : jsstring; text : jsstring }.

(** The links of an assignee or reviewer row,
    [users.map((user, index) => ...)]: each shows the login, followed by
    [", "] when [index < users.length - 1]. *)
Definition userLinks (users : list User.t) : list Link :=
  imap (λ index user,
          {| href := lit "https://github.com/" ++ User.login user;
             text := User.login user
                     ++ (if (Z.of_nat index <? Z.of_nat (length users) - 1)%Z
                         then lit ", " else lit "") |})
       users.

(** The three screens of the component.  The list screen carries the two
    numbers of its header, the settings panel when it is open (the text of
    the input, and the chips when there is at least one), and the records
    it maps to cards. *)
Inductive Screen :=
  | Loading
  | Failure (errorText : jsstring)
  | Listing (shown total : nat)
            (settings : option (jsstring * option (list jsstring)))
            (cards : list PullRequest.t).

(** The list screen: [({prs.length} of {allPrs.length})], the settings
    panel under [showSettings &&], the chips under
    [excludedAuthors.length > 0 &&], and [prs.map(...)]. *)
Definition listing (st : HomeScreen) : Screen :=
  Listing (length (prs st)) (length (allPrs st))
    (if showSettings st
     then Some (newAuthor st,
                if (0 <? length (excludedAuthors st))%nat
                then Some (excludedAuthors st) else None)
     else None)
    (prs st).

(** [if (loading) ...; if (error) ...; return <list>]: the error screen
    needs a truthy [error], that is a message that is not empty. *)
Definition render (st : HomeScreen) : Screen :=
  if loading st then Loading
  else
    match error st with
    | Some message => if truthy message then Failure message else listing st
    | None => listing st
    end.

(** The component state while [j] pages of a run have resolved with the
    non-empty bodies [ds] and the next one is pending. *)
Definition pending (st : HomeScreen) (ds : list (list PullRequest.t))
    (j : nat) : HomeScreen :=
  match j with
  | O => setError None (setLoading true st)
  | S _ =>
      setLoading false
        (setAllPrs (concat (take j ds)) (setError None (setLoading true st)))
  end.

(** ** The ways a run stops

    What ends the loop after the non-empty pages [ds]: the page cap, an
    empty page, or a page that makes it throw. *)
Inductive stop := AtCap | AtEmptyPage | AtFailure (e : thrown).

(** The endpoint answers pages [1 .. length ds] with the non-empty bodies
    [ds], and then the cap is reached, or the next page is empty, or the
    next page fails.  This speaks of the endpoint and the configuration
    only. *)
Definition endsWith (cfg : Config.t) (env : Env)
    (ds : list (list PullRequest.t)) (s : stop) : Prop :=
  serves cfg env ds ∧ Forall (λ d, d ≠ []) ds
  ∧ match s with
    | AtCap => length ds = N.to_nat (Config.maxPages cfg)
    | AtEmptyPage =>
        (length ds < N.to_nat (Config.maxPages cfg))%nat
        ∧ answers cfg env (1 + N.of_nat (length ds)) []
    | AtFailure e =>
        (length ds < N.to_nat (Config.maxPages cfg))%nat
        ∧ fails cfg env (1 + N.of_nat (length ds)) e
    end.

(** The number of pages requested by then: the page that stops the run,
    empty or failing, is requested too. *)
Definition requestCount (ds : list (list PullRequest.t)) (s : stop) : nat :=
  match s with
  | AtCap => length ds
  | AtEmptyPage | AtFailure _ => S (length ds)
  end.

(** The configuration with the page cap at zero. *)
Definition noPages : Config.t :=
  {| Config.repo := Config.repo config;
     Config.excludedAuthors := Config.excludedAuthors config;
     Config.perPage := Config.perPage config;
     Config.maxPages := 0 |}.

(** An endpoint whose transport fails with an error of empty message. *)
Definition silent : Env :=
  {| GITHUB_TOKEN := None; fetch := λ _, Rejected (ErrorObject []) |}.

(** One full page, then a transport failure that throws no [Error]. *)
Definition dropsAfterFirstPage : Env :=
  mock [okResponse (samplePage 0 100)].

(** * Properties *)

(** ** Strings *)

Example trim_alice : trim (lit "  alice  ") = lit "alice".
Proof. reflexivity. Qed.

Example trim_blank : trim (lit "   ") = [].
Proof. reflexivity. Qed.

Example toString_403 : toString 403 = lit "403".
Proof. vm_compute. reflexivity. Qed.

Example whitespace_units :
  isWhiteSpace <$> [9; 13; 32; 160; 8202; 65279; 14; 65; 8203]
  = [true; true; true; true; true; true; false; false; false].
Proof. reflexivity. Qed.

Example trim_inner_space : trim (lit " a b ") = lit "a b".
Proof. reflexivity. Qed.

Lemma trimStart_idemp s : trimStart (trimStart s) = trimStart s.
Proof.
  induction s as [|c s IH]; simpl; [done|].
  destruct (isWhiteSpace c) eqn:Hc; [done|]. simpl. by rewrite Hc.
Qed.

Lemma trimStart_snoc s c :
  isWhiteSpace c = false → trimStart (s ++ [c]) = trimStart s ++ [c].
Proof.
  intros Hc. induction s as [|a s IH]; simpl.
  - by rewrite Hc.
  - by destruct (isWhiteSpace a).
Qed.

Lemma trimEnd_cons c s :
  isWhiteSpace c = false → trimEnd (c :: s) = c :: trimEnd s.
Proof.
  intros Hc. unfold trimEnd.
  by rewrite reverse_cons, trimStart_snoc, reverse_snoc.
Qed.

Lemma trimEnd_idemp s : trimEnd (trimEnd s) = trimEnd s.
Proof. unfold trimEnd. by rewrite reverse_involutive, trimStart_idemp. Qed.

Lemma trimStart_trim s : trimStart (trim s) = trim s.
Proof.
  unfold trim. induction s as [|c s IH]; simpl; [done|].
  destruct (isWhiteSpace c) eqn:Hc; [done|].
  rewrite trimEnd_cons by done. simpl. by rewrite Hc.
Qed.

Lemma trim_idemp s : trim (trim s) = trim s.
Proof.
  unfold trim at 1. rewrite trimStart_trim. unfold trim.
  apply trimEnd_idemp.
Qed.

(** ** Lists *)

Section Filter.
Context {A : Type} (P : A → Prop) `{!∀ x, Decision (P x)}.

(** [filter P l] keeps every occurrence that satisfies [P]: it is the
    largest sublist of [l] whose elements all satisfy [P]. *)
Lemma filter_greatest (k l : list A) :
  k `sublist_of` l → Forall P k → k `sublist_of` filter P l.
Proof.
  induction 1 as [|x k l _ IH|x k l _ IH]; intros Hk.
  - constructor.
  - apply Forall_cons in Hk as [Hx Hk].
    rewrite filter_cons_True by done. constructor. auto.
  - rewrite filter_cons. destruct (decide (P x)); [constructor|]; auto.
Qed.

Lemma filter_all (l : list A) : Forall P l → filter P l = l.
Proof.
  induction 1 as [|x l Hx _ IH]; [done|].
  by rewrite filter_cons_True, IH.
Qed.

Lemma filter_idemp (l : list A) : filter P (filter P l) = filter P l.
Proof.
  apply filter_all, Forall_forall. intros x Hx.
  by apply list_elem_of_filter in Hx as [? _].
Qed.

End Filter.

Lemma includes_spec l x : includes l x = true ↔ x ∈ l.
Proof. unfold includes. apply bool_decide_eq_true. Qed.

Lemma not_includes_spec l x : ¬ includes l x ↔ x ∉ l.
Proof.
  unfold includes. by rewrite bool_decide_spec.
Qed.

(** ** The filter *)

(** C1. [filterPRs] shows exactly the records of the accumulated collection
    whose author login is not excluded: a record is shown iff it is
    accumulated and its login is not in the excluded list; the shown list
    is a sublist of the accumulated one (relative order kept) and contains
    every sublist of retained records (no retained occurrence is dropped);
    and filtering the shown list again with the same excluded list yields
    the shown list. *)
Theorem filterPRs_exact (st : HomeScreen) :
  (∀ r, r ∈ prs (filterPRs st) ↔
        r ∈ allPrs st
        ∧ User.login (PullRequest.user r) ∉ excludedAuthors st)
  ∧ prs (filterPRs st) `sublist_of` allPrs st
  ∧ (∀ k, k `sublist_of` allPrs st →
          Forall (λ r, User.login (PullRequest.user r) ∉ excludedAuthors st)
                 k →
          k `sublist_of` prs (filterPRs st))
  ∧ prs (filterPRs (setAllPrs (prs (filterPRs st)) st)) = prs (filterPRs st)
  ∧ excludedAuthors (filterPRs st) = excludedAuthors st
  ∧ allPrs (filterPRs st) = allPrs st.
Proof.
  simpl. split_and!; [|apply sublist_filter| |apply filter_idemp|done|done].
  - intros r. rewrite list_elem_of_filter, not_includes_spec. tauto.
  - intros k Hk Hall. apply filter_greatest; [done|].
    eapply Forall_impl; [exact Hall|]. intros r Hr.
    by apply not_includes_spec.
Qed.

(** ** The excluded-author editor *)

Lemma truthy_spec s : truthy s = true ↔ s ≠ [].
Proof. unfold truthy. apply bool_decide_eq_true. Qed.

Lemma excludedAuthors_add s st :
  excludedAuthors (add s st) =
    if truthy (trim s) && negb (includes (excludedAuthors st) (trim s))
    then excludedAuthors st ++ [trim s]
    else excludedAuthors st.
Proof.
  unfold add, addExcludedAuthor. simpl.
  by destruct (truthy (trim s) && _).
Qed.

Lemma excludedAuthors_add_fresh s st :
  trim s ≠ [] → trim s ∉ excludedAuthors st →
  excludedAuthors (add s st) = excludedAuthors st ++ [trim s].
Proof.
  intros Hne Hnew. rewrite excludedAuthors_add.
  apply truthy_spec in Hne as ->.
  apply not_includes_spec in Hnew.
  by destruct (includes (excludedAuthors st) (trim s)).
Qed.

Lemma excludedAuthors_add_noop s st :
  trim s = [] ∨ trim s ∈ excludedAuthors st →
  excludedAuthors (add s st) = excludedAuthors st.
Proof.
  intros H. rewrite excludedAuthors_add.
  destruct (truthy (trim s)) eqn:Ht; [|done].
  destruct (includes (excludedAuthors st) (trim s)) eqn:Hi; [done|].
  apply truthy_spec in Ht. destruct H as [H|H]; [done|].
  apply includes_spec in H. congruence.
Qed.

Lemma excludedAuthors_remove s st :
  excludedAuthors (remove s st) = filter (λ a, a ≠ s) (excludedAuthors st).
Proof. done. Qed.

Lemma filter_ne_absent (s : jsstring) (l : list jsstring) :
  s ∉ l → filter (λ a, a ≠ s) l = l.
Proof.
  intros Hs. apply filter_all, Forall_forall. intros a Ha ->. done.
Qed.

(** C4. [add s] trims [s]; when the trimmed value is empty or already in
    the excluded list the list is unchanged, otherwise the trimmed value is
    appended at the end.  Hence adding [s] and adding [trim s] act on the
    list alike, as do ["  alice  "] and ["alice"]. *)
Theorem add_trims_then_appends (st : HomeScreen) (s : jsstring) :
  (trim s = [] → excludedAuthors (add s st) = excludedAuthors st)
  ∧ (trim s ∈ excludedAuthors st →
     excludedAuthors (add s st) = excludedAuthors st)
  ∧ (trim s ≠ [] → trim s ∉ excludedAuthors st →
     excludedAuthors (add s st) = excludedAuthors st ++ [trim s])
  ∧ excludedAuthors (add (trim s) st) = excludedAuthors (add s st)
  ∧ excludedAuthors (add (lit "  alice  ") st)
    = excludedAuthors (add (lit "alice") st).
Proof.
  split_and!.
  - intros H. apply excludedAuthors_add_noop. by left.
  - intros H. apply excludedAuthors_add_noop. by right.
  - apply excludedAuthors_add_fresh.
  - by rewrite !excludedAuthors_add, trim_idemp.
  - by rewrite !excludedAuthors_add.
Qed.

(** C5. [remove s] leaves a list without [s] unchanged; from a list in
    which [s] occurs once, as [l1 ++ s :: l2], it yields [l1 ++ l2]; in
    general the result has no [s], is a sublist of the original (relative
    order kept) and contains every sublist of the original free of [s]
    (no other entry is dropped). *)
Theorem remove_exact_entry (st : HomeScreen) (s : jsstring) :
  (s ∉ excludedAuthors st →
   excludedAuthors (remove s st) = excludedAuthors st)
  ∧ (∀ l1 l2,
       excludedAuthors st = l1 ++ s :: l2 → s ∉ l1 → s ∉ l2 →
       excludedAuthors (remove s st) = l1 ++ l2)
  ∧ (s ∉ excludedAuthors (remove s st))
  ∧ (excludedAuthors (remove s st) `sublist_of` excludedAuthors st)
  ∧ (∀ k, k `sublist_of` excludedAuthors st → s ∉ k →
          k `sublist_of` excludedAuthors (remove s st)).
Proof.
  rewrite excludedAuthors_remove. split_and!.
  - apply filter_ne_absent.
  - intros l1 l2 -> H1 H2.
    rewrite filter_app, filter_cons_False by (intros H; by apply H).
    by rewrite !filter_ne_absent.
  - rewrite list_elem_of_filter. by intros [? _].
  - apply sublist_filter.
  - intros k Hk Hs. apply filter_greatest; [done|].
    apply Forall_forall. by intros a Ha ->.
Qed.

(** C10. Adding a fresh, non-empty, already trimmed login and removing it
    at once gives back the excluded list one started from. *)
Theorem add_then_remove (st : HomeScreen) (L : jsstring) :
  trim L = L → L ≠ [] → L ∉ excludedAuthors st →
  excludedAuthors (remove L (add L st)) = excludedAuthors st.
Proof.
  intros Htrim Hne Hnew.
  rewrite excludedAuthors_remove, excludedAuthors_add_fresh
    by (rewrite Htrim; done).
  rewrite Htrim, filter_app, filter_ne_absent by done.
  rewrite filter_cons_False by (intros H; by apply H).
  by rewrite filter_nil, app_nil_r.
Qed.

Lemma add_then_remove_witness :
  excludedAuthors (remove (lit "alice") (add (lit "alice") initialState))
  = excludedAuthors initialState.
Proof.
  apply add_then_remove.
  - reflexivity.
  - discriminate.
  - apply (bool_decide_unpack _). vm_compute. exact I.
Defined.

(** *** Uniqueness and order *)









(** ** The fetcher *)

Section FetcherProperties.

Context (cfg : Config.t) (env : Env).

(** One iteration of the loop, by the way the page settles. *)
Lemma forPages_step n page acc w :
  forPages cfg env (S n) page acc w =
    match fetch env (pageRequest cfg env page) with
    | Rejected e => (Rejected e, suspend cfg env w page)
    | Fulfilled r =>
        if ok r then
          match json r with
          | Rejected e => (Rejected e, suspend cfg env w page)
          | Fulfilled d =>
              if (length d =? 0)%nat
              then (Fulfilled acc, suspend cfg env w page)
              else forPages cfg env n (page + 1) (acc ++ d)
                     (resume cfg env w page (acc ++ d))
          end
        else (Rejected (statusError r), suspend cfg env w page)
    end.
Proof.
  simpl. unfold bind at 1. unfold fetchPage.
  destruct (fetch env (pageRequest cfg env page)) as [r|e]; [|done].
  destruct (ok r); simpl; [|done].
  unfold bind at 1. unfold await.
  destruct (json r) as [d|e]; [|done].
  destruct (length d =? 0)%nat; done.
Qed.

Lemma length_eqb_0 {A} (d : list A) : d ≠ [] → (length d =? 0)%nat = false.
Proof. destruct d; [done|]. done. Qed.

Lemma forPages_advance ds : ∀ n page acc w,
  servesFrom cfg env page ds →
  Forall (λ d, d ≠ []) ds →
  forPages cfg env (length ds + n) page acc w =
    forPages cfg env n (page + N.of_nat (length ds)) (acc ++ concat ds)
      (advance cfg env w page acc ds).
Proof.
  induction ds as [|d ds IH]; intros n page acc w Hans Hne.
  - simpl. by rewrite N.add_0_r, app_nil_r.
  - apply Forall_cons in Hne as [Hd Hne].
    destruct (Hans 0%nat d eq_refl) as (r & Hf & Hok & Hj).
    rewrite N.add_0_r in Hf.
    change (length (d :: ds) + n)%nat with (S (length ds + n)).
    rewrite forPages_step, Hf, Hok, Hj, length_eqb_0 by done.
    rewrite IH; [|intros i d' Hi|done].
    + simpl. rewrite <- app_assoc. f_equal. lia.
    + replace (page + 1 + N.of_nat i) with (page + N.of_nat (S i)) by lia.
      by apply Hans.
Qed.

Lemma forPages_cap ds page acc w :
  servesFrom cfg env page ds →
  Forall (λ d, d ≠ []) ds →
  forPages cfg env (length ds) page acc w =
    (Fulfilled (acc ++ concat ds), advance cfg env w page acc ds).
Proof.
  intros Hans Hne.
  rewrite <- (Nat.add_0_r (length ds)) at 1.
  by rewrite forPages_advance.
Qed.

Lemma forPages_empty ds n page acc w :
  servesFrom cfg env page ds →
  Forall (λ d, d ≠ []) ds →
  (length ds < n)%nat →
  answers cfg env (page + N.of_nat (length ds)) [] →
  forPages cfg env n page acc w =
    (Fulfilled (acc ++ concat ds),
     suspend cfg env (advance cfg env w page acc ds)
       (page + N.of_nat (length ds))).
Proof.
  intros Hans Hne Hlt (r & Hf & Hok & Hj).
  replace n with (length ds + S (n - S (length ds)))%nat by lia.
  rewrite forPages_advance, forPages_step, Hf, Hok, Hj by done.
  done.
Qed.

Lemma forPages_fails ds n page acc w e :
  servesFrom cfg env page ds →
  Forall (λ d, d ≠ []) ds →
  (length ds < n)%nat →
  fails cfg env (page + N.of_nat (length ds)) e →
  forPages cfg env n page acc w =
    (Rejected e,
     suspend cfg env (advance cfg env w page acc ds)
       (page + N.of_nat (length ds))).
Proof.
  intros Hans Hne Hlt Hfail.
  replace n with (length ds + S (n - S (length ds)))%nat by lia.
  rewrite forPages_advance, forPages_step by done.
  destruct Hfail as [Hf|[(r & Hf & Hok & ->)|(r & Hf & Hok & Hj)]].
  - by rewrite Hf.
  - by rewrite Hf, Hok.
  - by rewrite Hf, Hok, Hj.
Qed.

(** Every endpoint answers some run of consecutive pages with non-empty
    bodies and then either the cap is reached, or the next page is empty,
    or the next page makes the loop throw. *)
Lemma classify n : ∀ page,
  ∃ ds,
    servesFrom cfg env page ds
    ∧ Forall (λ d, d ≠ []) ds
    ∧ (length ds = n
       ∨ (length ds < n)%nat
         ∧ (answers cfg env (page + N.of_nat (length ds)) []
            ∨ ∃ e, fails cfg env (page + N.of_nat (length ds)) e)).
Proof.
  induction n as [|n IH]; intros page.
  { exists []. split_and!; [done|constructor|by left]. }
  destruct (fetch env (pageRequest cfg env page)) as [r|e] eqn:Hf.
  2: { exists []. rewrite N.add_0_r. split; [done|]. split; [constructor|].
       right. split; [simpl; lia|]. right. exists e. by left. }
  destruct (ok r) eqn:Hok.
  2: { exists []. rewrite N.add_0_r. split; [done|]. split; [constructor|].
       right. split; [simpl; lia|]. right. exists (statusError r).
       right; left. by exists r. }
  destruct (json r) as [d|e] eqn:Hj.
  2: { exists []. rewrite N.add_0_r. split; [done|]. split; [constructor|].
       right. split; [simpl; lia|]. right. exists e.
       right; right. by exists r. }
  destruct d as [|x d].
  { exists []. rewrite N.add_0_r. split; [done|]. split; [constructor|].
    right. split; [simpl; lia|]. left. by exists r. }
  destruct (IH (page + 1)) as (ds & Hans & Hne & Hend).
  exists ((x :: d) :: ds). split_and!.
  - intros [|i] d' Hi; simpl in Hi.
    + injection Hi as <-. rewrite N.add_0_r. by exists r.
    + replace (page + N.of_nat (S i)) with (page + 1 + N.of_nat i) by lia.
      by apply Hans.
  - by constructor.
  - replace (page + N.of_nat (length ((x :: d) :: ds)))
      with (page + 1 + N.of_nat (length ds)) by (simpl; lia).
    destruct Hend as [Hend|[Hlt Hend]]; [left|right].
    + simpl. by rewrite Hend.
    + split; [simpl; lia|done].
Qed.

(** *** The world after [advance] *)

Lemma awaited_advance ds : ∀ w page acc,
  ∃ entries,
    awaited (advance cfg env w page acc ds) = awaited w ++ entries
    ∧ entries.*1 = pageRequest cfg env <$> pagesFrom page (length ds).
Proof.
  induction ds as [|d ds IH]; intros w page acc; simpl.
  - exists []. by rewrite app_nil_r.
  - destruct (IH (resume cfg env w page (acc ++ d)) (page + 1) (acc ++ d))
      as (entries & -> & Hreq).
    exists ((pageRequest cfg env page, screen w) :: entries). split.
    + cbn. by rewrite <- app_assoc.
    + rewrite fmap_cons, Hreq. done.
Qed.

Lemma screen_advance ds : ∀ w page acc,
  screen (advance cfg env w page acc ds) =
    match ds with
    | [] => screen w
    | _ => setLoading false (setAllPrs (acc ++ concat ds) (screen w))
    end.
Proof.
  induction ds as [|d ds IH]; intros w page acc; simpl; [done|].
  rewrite IH. destruct ds as [|d' ds]; simpl.
  - by rewrite app_nil_r.
  - by rewrite <- !app_assoc.
Qed.

(** *** The run as a whole *)

Lemma invoke_unfold st :
  invoke cfg env st =
    match forPages cfg env (N.to_nat (Config.maxPages cfg)) 1 [] (started st)
    with
    | (Fulfilled fetchedPrs, w) =>
        {| screen := setLoading false (setAllPrs fetchedPrs (screen w));
           awaited := awaited w |}
    | (Rejected e, w) =>
        {| screen := setLoading false
                       (setError (Some (errorMessage e)) (screen w));
           awaited := awaited w |}
    end.
Proof.
  unfold invoke, fetchPullRequests, try_catch_finally, started.
  unfold bind at 1 2 3. unfold set at 1 2. simpl.
  destruct (forPages _ _ _ _ _ _) as [[f|e] w]; done.
Qed.

End FetcherProperties.

Section Runs.

Context (cfg : Config.t) (env : Env).

Lemma answers_unique page d d' :
  answers cfg env page d → answers cfg env page d' → d = d'.
Proof. intros (r & Hf & _ & Hj) (r' & Hf' & _ & Hj'). congruence. Qed.

Lemma answers_not_fails page d e :
  answers cfg env page d → ¬ fails cfg env page e.
Proof.
  intros (r & Hf & Hok & Hj) [Hf'|[(r' & Hf' & Hok' & _)|(r' & Hf' & _ & Hj')]];
    congruence.
Qed.

Lemma bodyOf_answers page d :
  answers cfg env page d → bodyOf env (pageRequest cfg env page) = d.
Proof. intros (r & Hf & _ & Hj). unfold bodyOf. by rewrite Hf, Hj. Qed.

(** The run when the cap is reached. *)
Lemma invoke_cap st ds :
  serves cfg env ds → Forall (λ d, d ≠ []) ds →
  length ds = N.to_nat (Config.maxPages cfg) →
  invoke cfg env st =
    {| screen := setLoading false
         (setAllPrs (concat ds)
            (screen (advance cfg env (started st) 1 [] ds)));
       awaited := awaited (advance cfg env (started st) 1 [] ds) |}.
Proof.
  intros Hs Hne Hlen. rewrite invoke_unfold, <- Hlen.
  by rewrite forPages_cap.
Qed.

(** The run when an empty page ends it. *)
Lemma invoke_empty st ds :
  serves cfg env ds → Forall (λ d, d ≠ []) ds →
  (length ds < N.to_nat (Config.maxPages cfg))%nat →
  answers cfg env (1 + N.of_nat (length ds)) [] →
  invoke cfg env st =
    {| screen := setLoading false
         (setAllPrs (concat ds)
            (screen (advance cfg env (started st) 1 [] ds)));
       awaited :=
         awaited (suspend cfg env (advance cfg env (started st) 1 [] ds)
                    (1 + N.of_nat (length ds))) |}.
Proof.
  intros Hs Hne Hlt Hempty. rewrite invoke_unfold.
  by rewrite (forPages_empty cfg env ds).
Qed.

(** The run when a page makes the loop throw. *)
Lemma invoke_fails st ds e :
  serves cfg env ds → Forall (λ d, d ≠ []) ds →
  (length ds < N.to_nat (Config.maxPages cfg))%nat →
  fails cfg env (1 + N.of_nat (length ds)) e →
  invoke cfg env st =
    {| screen := setLoading false
         (setError (Some (errorMessage e))
            (screen (advance cfg env (started st) 1 [] ds)));
       awaited :=
         awaited (suspend cfg env (advance cfg env (started st) 1 [] ds)
                    (1 + N.of_nat (length ds))) |}.
Proof.
  intros Hs Hne Hlt Hfail. rewrite invoke_unfold.
  by rewrite (forPages_fails cfg env ds _ _ _ _ e).
Qed.

(** Every run has one of these three shapes. *)
Lemma run_shape :
  ∃ ds, serves cfg env ds ∧ Forall (λ d, d ≠ []) ds
    ∧ (length ds = N.to_nat (Config.maxPages cfg)
       ∨ (length ds < N.to_nat (Config.maxPages cfg))%nat
         ∧ (answers cfg env (1 + N.of_nat (length ds)) []
            ∨ ∃ e, fails cfg env (1 + N.of_nat (length ds)) e)).
Proof.
  destruct (classify cfg env (N.to_nat (Config.maxPages cfg)) 1)
    as (ds & Hans & Hne & Hend).
  by exists ds.
Qed.

Lemma pagesFrom_snoc count : ∀ page,
  pagesFrom page (S count) = pagesFrom page count ++ [page + N.of_nat count].
Proof.
  induction count as [|count IH]; intros page.
  - simpl. by rewrite N.add_0_r.
  - change (pagesFrom page (S (S count)))
      with (page :: pagesFrom (page + 1) (S count)).
    rewrite IH. simpl. do 3 f_equal. lia.
Qed.

Lemma elem_of_pagesFrom count : ∀ page p,
  p ∈ pagesFrom page count ↔ page ≤ p < page + N.of_nat count.
Proof.
  induction count as [|count IH]; intros page p; simpl.
  - rewrite elem_of_nil. lia.
  - rewrite elem_of_cons, IH. lia.
Qed.

Lemma lookup_pagesFrom count : ∀ page (i : nat),
  (i < count)%nat → pagesFrom page count !! i = Some (page + N.of_nat i).
Proof.
  induction count as [|count IH]; intros page i Hi; [lia|].
  destruct i as [|i]; simpl.
  - by rewrite N.add_0_r.
  - rewrite IH by lia. f_equal. lia.
Qed.

Lemma length_pagesFrom count : ∀ page, length (pagesFrom page count) = count.
Proof. induction count as [|count IH]; intros page; simpl; auto. Qed.

Lemma requests_advance st ds :
  requests (advance cfg env (started st) 1 [] ds)
  = pageRequest cfg env <$> pagesFrom 1 (length ds).
Proof.
  unfold requests.
  destruct (awaited_advance cfg env ds (started st) 1 [])
    as (entries & -> & Hreq).
  done.
Qed.

Lemma requests_suspend_advance st ds :
  requests (suspend cfg env (advance cfg env (started st) 1 [] ds)
              (1 + N.of_nat (length ds)))
  = pageRequest cfg env <$> pagesFrom 1 (S (length ds)).
Proof.
  unfold requests, suspend. simpl awaited.
  rewrite fmap_app. fold (requests (advance cfg env (started st) 1 [] ds)).
  by rewrite requests_advance, pagesFrom_snoc, fmap_app.
Qed.

Lemma bodyOf_served ds :
  serves cfg env ds →
  bodyOf env <$> (pageRequest cfg env <$> pagesFrom 1 (length ds)) = ds.
Proof.
  intros Hs. apply list_eq. intros i.
  rewrite !list_lookup_fmap.
  destruct (ds !! i) as [d|] eqn:Hi.
  - rewrite lookup_pagesFrom by (by eapply lookup_lt_Some). simpl.
    f_equal. apply bodyOf_answers. by apply Hs.
  - apply lookup_ge_None in Hi.
    by rewrite (lookup_ge_None_2 (pagesFrom 1 (length ds)))
      by (by rewrite length_pagesFrom).
Qed.

Lemma error_advance st ds :
  error (screen (advance cfg env (started st) 1 [] ds)) = None.
Proof. rewrite screen_advance. by destruct ds. Qed.

Lemma allPrs_advance st ds :
  allPrs (screen (advance cfg env (started st) 1 [] ds))
  = match ds with [] => allPrs st | _ => concat ds end.
Proof. rewrite screen_advance. by destruct ds. Qed.

(** *** What each shape of run leaves behind *)

Lemma cap_outcome st ds :
  serves cfg env ds → Forall (λ d, d ≠ []) ds →
  length ds = N.to_nat (Config.maxPages cfg) →
  requests (invoke cfg env st)
    = pageRequest cfg env <$> pagesFrom 1 (length ds)
  ∧ error (screen (invoke cfg env st)) = None
  ∧ allPrs (screen (invoke cfg env st)) = concat ds
  ∧ loading (screen (invoke cfg env st)) = false.
Proof.
  intros Hs Hne Hlen. rewrite (invoke_cap st ds) by done.
  split_and!; [apply requests_advance|apply error_advance|done..].
Qed.

Lemma empty_outcome st ds :
  serves cfg env ds → Forall (λ d, d ≠ []) ds →
  (length ds < N.to_nat (Config.maxPages cfg))%nat →
  answers cfg env (1 + N.of_nat (length ds)) [] →
  requests (invoke cfg env st)
    = pageRequest cfg env <$> pagesFrom 1 (S (length ds))
  ∧ error (screen (invoke cfg env st)) = None
  ∧ allPrs (screen (invoke cfg env st)) = concat ds
  ∧ loading (screen (invoke cfg env st)) = false.
Proof.
  intros Hs Hne Hlt Hempty. rewrite (invoke_empty st ds) by done.
  split_and!; [apply requests_suspend_advance|apply error_advance|done..].
Qed.

Lemma fails_outcome st ds e :
  serves cfg env ds → Forall (λ d, d ≠ []) ds →
  (length ds < N.to_nat (Config.maxPages cfg))%nat →
  fails cfg env (1 + N.of_nat (length ds)) e →
  requests (invoke cfg env st)
    = pageRequest cfg env <$> pagesFrom 1 (S (length ds))
  ∧ error (screen (invoke cfg env st)) = Some (errorMessage e)
  ∧ allPrs (screen (invoke cfg env st))
    = match ds with [] => allPrs st | _ => concat ds end
  ∧ loading (screen (invoke cfg env st)) = false.
Proof.
  intros Hs Hne Hlt Hfail. rewrite (invoke_fails st ds e) by done.
  split_and!; [apply requests_suspend_advance|done|apply allPrs_advance|done].
Qed.

Lemma requests_invoke st :
  ∃ m, (m ≤ N.to_nat (Config.maxPages cfg))%nat
       ∧ requests (invoke cfg env st) = pageRequest cfg env <$> pagesFrom 1 m.
Proof.
  destruct run_shape as (ds & Hs & Hne & [Hcap|[Hlt [Hempty|[e Hfail]]]]).
  - exists (length ds). split; [lia|]. by apply cap_outcome.
  - exists (S (length ds)). split; [lia|]. by apply empty_outcome.
  - exists (S (length ds)). split; [lia|]. by eapply fails_outcome.
Qed.

Lemma success_accumulates st :
  error (screen (invoke cfg env st)) = None →
  allPrs (screen (invoke cfg env st))
  = concat (bodyOf env <$> requests (invoke cfg env st)).
Proof.
  destruct run_shape as (ds & Hs & Hne & [Hcap|[Hlt [Hempty|[e Hfail]]]]).
  - destruct (cap_outcome st ds) as (-> & _ & -> & _); [done..|].
    by rewrite bodyOf_served.
  - destruct (empty_outcome st ds) as (-> & _ & -> & _); [done..|].
    rewrite pagesFrom_snoc, !fmap_app, bodyOf_served by done. simpl.
    rewrite (bodyOf_answers _ []) by done.
    by rewrite concat_app, !app_nil_r.
  - destruct (fails_outcome st ds e) as (_ & -> & _); [done..|]. done.
Qed.

(** C2. The requests of a run are those of pages 1, 2, ... in this order,
    at most [maxPages] of them.  When pages [1 .. n] have the non-empty
    bodies [ds] and page [n + 1] is empty, the run issues [n + 1] requests
    and ends without error with [concat ds] accumulated; when [maxPages]
    pages are non-empty it issues [maxPages] requests and accumulates
    them all.  A run that ends without error has accumulated the bodies
    of the pages it requested, in order.  So pages of sizes 100, 100, 0
    give three requests and 200 records, and an endpoint without empty
    page gives exactly five requests when [maxPages] is 5. *)
Theorem fetchPullRequests_pagination st :
  (∃ m, (m ≤ N.to_nat (Config.maxPages cfg))%nat
        ∧ requests (invoke cfg env st)
          = pageRequest cfg env <$> pagesFrom 1 m)
  ∧ (∀ ds, serves cfg env ds → Forall (λ d, d ≠ []) ds →
       (length ds < N.to_nat (Config.maxPages cfg))%nat →
       answers cfg env (1 + N.of_nat (length ds)) [] →
       requests (invoke cfg env st)
         = pageRequest cfg env <$> pagesFrom 1 (S (length ds))
       ∧ error (screen (invoke cfg env st)) = None
       ∧ allPrs (screen (invoke cfg env st)) = concat ds)
  ∧ (∀ ds, serves cfg env ds → Forall (λ d, d ≠ []) ds →
       length ds = N.to_nat (Config.maxPages cfg) →
       requests (invoke cfg env st)
         = pageRequest cfg env <$> pagesFrom 1 (N.to_nat (Config.maxPages cfg))
       ∧ error (screen (invoke cfg env st)) = None
       ∧ allPrs (screen (invoke cfg env st)) = concat ds)
  ∧ (error (screen (invoke cfg env st)) = None →
     allPrs (screen (invoke cfg env st))
     = concat (bodyOf env <$> requests (invoke cfg env st)))
  ∧ (∀ p1 p2, length p1 = 100%nat → length p2 = 100%nat →
       3 ≤ Config.maxPages cfg →
       answers cfg env 1 p1 → answers cfg env 2 p2 →
       answers cfg env 3 [] →
       requests (invoke cfg env st) = pageRequest cfg env <$> [1; 2; 3]
       ∧ error (screen (invoke cfg env st)) = None
       ∧ allPrs (screen (invoke cfg env st)) = p1 ++ p2
       ∧ length (allPrs (screen (invoke cfg env st))) = 200%nat)
  ∧ (Config.maxPages cfg = 5 →
     (∀ page, ∃ d, d ≠ [] ∧ answers cfg env page d) →
     requests (invoke cfg env st) = pageRequest cfg env <$> [1; 2; 3; 4; 5]
     ∧ error (screen (invoke cfg env st)) = None
     ∧ ∃ ds, length ds = 5%nat ∧ serves cfg env ds
             ∧ allPrs (screen (invoke cfg env st)) = concat ds).
Proof.
  split_and!.
  - apply requests_invoke.
  - intros ds Hs Hne Hlt Hempty.
    destruct (empty_outcome st ds) as (? & ? & ? & _); done.
  - intros ds Hs Hne Hlen.
    destruct (cap_outcome st ds) as (? & ? & ? & _); [done..|].
    by rewrite <- Hlen.
  - apply success_accumulates.
  - intros p1 p2 H1 H2 Hmax Ha1 Ha2 Ha3.
    assert (p1 ≠ []) by (intros ->; done).
    assert (p2 ≠ []) by (intros ->; done).
    destruct (empty_outcome st [p1; p2]) as (-> & -> & -> & _).
    + intros [|[|i]] d Hi; simpl in Hi; simplify_eq; done.
    + by repeat constructor.
    + simpl. lia.
    + done.
    + simpl. rewrite app_nil_r, length_app, H1, H2. done.
  - intros Hmax Hfull.
    destruct run_shape as (ds & Hs & Hne & [Hcap|[Hlt [Hempty|[e Hfail]]]]).
    + destruct (cap_outcome st ds) as (-> & -> & -> & _); [done..|].
      rewrite Hcap, Hmax. split_and!; [done..|].
      exists ds. by rewrite Hcap, Hmax.
    + destruct (Hfull (1 + N.of_nat (length ds))) as (d & Hd & Ha).
      by rewrite (answers_unique _ _ _ Ha Hempty) in Hd.
    + destruct (Hfull (1 + N.of_nat (length ds))) as (d & Hd & Ha).
      by destruct (answers_not_fails _ _ e Ha).
Qed.

(** *** Requests of distinct pages are distinct *)

Lemma lit_inj s t : lit s = lit t → s = t.
Proof.
  unfold lit. intros H.
  rewrite <- (string_of_list_ascii_of_string s),
          <- (string_of_list_ascii_of_string t).
  f_equal. revert H. generalize (list_ascii_of_string t).
  induction (list_ascii_of_string s) as [|a l IH]; intros [|b k] H;
    simplify_eq/=; [done|].
  f_equal; [|by apply IH].
  by rewrite <- (ascii_N_embedding a), <- (ascii_N_embedding b), H.
Qed.

Lemma toString_inj p q : toString p = toString q → p = q.
Proof. unfold toString. intros H%lit_inj. by apply (inj pretty). Qed.

Lemma pageRequest_inj p q :
  pageRequest cfg env p = pageRequest cfg env q → p = q.
Proof.
  intros H. apply (f_equal url) in H. simpl in H. unfold requestUrl in H.
  repeat apply app_inv_head in H. by apply toString_inj.
Qed.

Lemma elem_of_page_requests p page count :
  pageRequest cfg env p ∈ pageRequest cfg env <$> pagesFrom page count
  ↔ page ≤ p < page + N.of_nat count.
Proof.
  rewrite list_elem_of_fmap, <- elem_of_pagesFrom. split.
  - intros (q & Hq%pageRequest_inj & Hin). by subst.
  - intros Hin. by exists p.
Qed.

Lemma contains_status_and_reason r :
  contains (errorMessage (statusError r)) (toString (status r))
  ∧ contains (errorMessage (statusError r)) (statusText r).
Proof.
  unfold contains. simpl. split.
  - by exists (lit "GitHub API error: "), (lit " " ++ statusText r).
  - exists (lit "GitHub API error: " ++ toString (status r) ++ lit " "), [].
    by rewrite app_nil_r, <- !app_assoc.
Qed.

(** C3. When pages [1 .. k-1] resolve with non-empty bodies and page [k]
    comes back with a status outside 200-299, the run ends with the error
    message ["GitHub API error: <status> <statusText>"], which contains
    the decimal status code and the reason text; the requests issued are
    those of pages [1 .. k] and no later page is requested; the run is
    not left loading and does not end without error. *)
Theorem fetchPullRequests_error_abort st ds r :
  serves cfg env ds → Forall (λ d, d ≠ []) ds →
  (length ds < N.to_nat (Config.maxPages cfg))%nat →
  fetch env (pageRequest cfg env (1 + N.of_nat (length ds))) = Fulfilled r →
  ok r = false →
  requests (invoke cfg env st)
    = pageRequest cfg env <$> pagesFrom 1 (S (length ds))
  ∧ (∀ p, 1 + N.of_nat (length ds) < p →
          pageRequest cfg env p ∉ requests (invoke cfg env st))
  ∧ error (screen (invoke cfg env st))
    = Some (lit "GitHub API error: " ++ toString (status r) ++ lit " "
            ++ statusText r)
  ∧ (∃ msg, error (screen (invoke cfg env st)) = Some msg
            ∧ contains msg (toString (status r))
            ∧ contains msg (statusText r))
  ∧ loading (screen (invoke cfg env st)) = false.
Proof.
  intros Hs Hne Hlt Hf Hok.
  destruct (fails_outcome st ds (statusError r)) as (Hreq & Herr & _ & Hl);
    [done..| |].
  { right; left. by exists r. }
  split_and!; [done| |done| |done].
  - intros p Hp. rewrite Hreq, elem_of_page_requests. lia.
  - exists (errorMessage (statusError r)). split; [done|].
    apply contains_status_and_reason.
Qed.

End Runs.

Lemma fetchPullRequests_error_abort_witness :
  requests (invoke config forbiddenOnPage2 initialState)
    = pageRequest config forbiddenOnPage2 <$> [1; 2]
  ∧ (pageRequest config forbiddenOnPage2 3
     ∉ requests (invoke config forbiddenOnPage2 initialState))
  ∧ error (screen (invoke config forbiddenOnPage2 initialState))
    = Some (lit "GitHub API error: 403 Forbidden")
  ∧ contains (lit "GitHub API error: 403 Forbidden") (lit "403").
Proof.
  destruct (fetchPullRequests_error_abort config forbiddenOnPage2 initialState
              [samplePage 0 100]
              {| status := 403; statusText := lit "Forbidden";
                 json := Rejected (ErrorObject (lit "Unexpected token")) |})
    as (Hreq & Hlater & Herr & (msg & Hmsg & Hcode & _) & _).
  - intros [|i] d Hi; simplify_eq/=.
    exists {| status := 200; statusText := lit "OK";
              json := Fulfilled (samplePage 0 100) |}.
    split_and!; vm_compute; reflexivity.
  - repeat constructor. discriminate.
  - vm_compute. lia.
  - vm_compute. reflexivity.
  - reflexivity.
  - split_and!; [exact Hreq|apply Hlater; reflexivity| |].
    + rewrite Herr. vm_compute. reflexivity.
    + rewrite Herr in Hmsg. injection Hmsg as <-.
      revert Hcode. vm_compute. exact (λ H, H).
Defined.

Section Visibility.

Context (cfg : Config.t) (env : Env).

(** Once the component shows [X] at the head of its accumulated list and
    the local array starts with [X] too, every state seen during the rest
    of the loop, the state the loop ends in and the array it returns all
    start with [X]. *)
Lemma forPages_grows X n : ∀ page acc w,
  X `prefix_of` acc → X `prefix_of` allPrs (screen w) →
  ∃ entries,
    awaited (forPages cfg env n page acc w).2 = awaited w ++ entries
    ∧ Forall (λ S, X `prefix_of` allPrs S) entries.*2
    ∧ X `prefix_of` allPrs (screen (forPages cfg env n page acc w).2)
    ∧ (∀ f, (forPages cfg env n page acc w).1 = Fulfilled f →
            X `prefix_of` f).
Proof.
  induction n as [|n IH]; intros page acc w Hacc Hw.
  { exists []. simpl. rewrite app_nil_r. split_and!; [done|constructor|done|].
    by intros f [= <-]. }
  rewrite forPages_step.
  assert (∀ res : settled (list PullRequest.t),
            (∀ f, res = Fulfilled f → X `prefix_of` f) →
            ∃ entries,
              awaited (res, suspend cfg env w page).2 = awaited w ++ entries
              ∧ Forall (λ S, X `prefix_of` allPrs S) entries.*2
              ∧ X `prefix_of` allPrs (screen (res, suspend cfg env w page).2)
              ∧ (∀ f, (res, suspend cfg env w page).1 = Fulfilled f →
                      X `prefix_of` f)) as Hstop.
  { intros res Hres. exists [(pageRequest cfg env page, screen w)].
    split_and!; [done|by repeat constructor|done|done]. }
  destruct (fetch env (pageRequest cfg env page)) as [r|e];
    [|by apply Hstop].
  destruct (ok r); [|by apply Hstop].
  destruct (json r) as [d|e]; [|by apply Hstop].
  destruct (length d =? 0)%nat; [apply Hstop; by intros f [= <-]|].
  destruct (IH (page + 1) (acc ++ d) (resume cfg env w page (acc ++ d)))
    as (entries & Hawaited & Hall & Hscreen & Hres).
  { by apply prefix_app_r. }
  { simpl. by apply prefix_app_r. }
  exists ((pageRequest cfg env page, screen w) :: entries).
  split_and!; [|by constructor|done|done].
  rewrite Hawaited. simpl. by rewrite <- app_assoc.
Qed.

(** After the non-empty pages [ds] resolved, every state seen from then on
    shows their records at the head of the accumulated list. *)
Lemma visible_after st ds :
  serves cfg env ds → Forall (λ d, d ≠ []) ds →
  (length ds ≤ N.to_nat (Config.maxPages cfg))%nat →
  (length ds < length (visible (invoke cfg env st)))%nat
  ∧ ∀ (i : nat) S, (length ds ≤ i)%nat →
      visible (invoke cfg env st) !! i = Some S →
      concat ds `prefix_of` allPrs S.
Proof.
  intros Hs Hne Hlen. rewrite invoke_unfold.
  replace (N.to_nat (Config.maxPages cfg))
    with (length ds + (N.to_nat (Config.maxPages cfg) - length ds))%nat by lia.
  rewrite forPages_advance by done.
  destruct (awaited_advance cfg env ds (started st) 1 [])
    as (entries0 & Hawaited0 & Hreq0).
  assert (length entries0 = length ds) as Hlen0.
  { by rewrite <- (length_fmap fst), Hreq0, length_fmap, length_pagesFrom. }
  simpl in Hawaited0.
  destruct (forPages_grows (concat ds)
              (N.to_nat (Config.maxPages cfg) - length ds)
              (1 + N.of_nat (length ds)) ([] ++ concat ds)
              (advance cfg env (started st) 1 [] ds))
    as (entries & Hawaited & Hall & Hscreen & Hres).
  { done. }
  { rewrite allPrs_advance. destruct ds; [apply prefix_nil|done]. }
  destruct (forPages cfg env _ _ _ _) as [res w]. simpl in *.
  rewrite Hawaited0 in Hawaited.
  assert (∀ final, concat ds `prefix_of` allPrs final →
            (length ds
             < length (visible {| screen := final; awaited := awaited w |}))%nat
            ∧ ∀ (i : nat) S, (length ds ≤ i)%nat →
                visible {| screen := final; awaited := awaited w |} !! i
                  = Some S →
                concat ds `prefix_of` allPrs S) as Hvisible.
  { intros final Hfinal. unfold visible. simpl. rewrite Hawaited, fmap_app.
    split.
    - rewrite !length_app, length_fmap. simpl. lia.
    - intros i S Hi.
      rewrite <- app_assoc, lookup_app_r by (rewrite length_fmap; lia).
      intros [Hin|[_ Hin]]%lookup_app_Some.
      + rewrite Forall_forall in Hall. eapply Hall, list_elem_of_lookup_2, Hin.
      + apply list_lookup_singleton_Some in Hin as [_ <-]. done. }
  destruct res as [f|e]; apply Hvisible; simpl; [by apply Hres|done].
Qed.

Lemma length_visible w : length (visible w) = S (length (requests w)).
Proof.
  unfold visible, requests. rewrite length_app, !length_fmap. simpl. lia.
Qed.

(** C6. Let pages [1 .. k] have resolved with the bodies [ds] (all of
    them before the last non-empty, so that page [k] is reached).  Then
    the run has a state seen after page [k], and every state seen from
    then on (while page [k+1] or a later page is pending, and at the
    end of the run, whether it ends normally or with an error) shows the
    records of pages [1 .. k], in order, at the head of the accumulated
    list. *)
Theorem fetchPullRequests_incremental_visibility st ds :
  serves cfg env ds → ds ≠ [] →
  (length ds ≤ N.to_nat (Config.maxPages cfg))%nat →
  (∀ (i : nat) d, ds !! i = Some d → (S i < length ds)%nat → d ≠ []) →
  (length ds < length (visible (invoke cfg env st)))%nat
  ∧ ∀ (i : nat) S, (length ds ≤ i)%nat →
      visible (invoke cfg env st) !! i = Some S →
      concat ds `prefix_of` allPrs S.
Proof.
  intros Hs Hds Hlen Hinner.
  destruct ds as [|d0 ds0] using rev_ind; [done|]. clear IHds0 Hds.
  rename ds0 into ds', d0 into dl.
  rewrite length_app in *. simpl in *.
  assert (serves cfg env ds') as Hs'.
  { intros i d Hi. apply Hs. by apply lookup_app_l_Some. }
  assert (Forall (λ d, d ≠ []) ds') as Hne'.
  { apply Forall_forall. intros d [i Hi]%list_elem_of_lookup.
    apply (Hinner i).
    - by apply lookup_app_l_Some.
    - apply lookup_lt_Some in Hi. lia. }
  destruct (decide (dl = [])) as [->|Hdl].
  - rewrite concat_app. simpl. rewrite app_nil_r. split.
    + rewrite length_visible.
      destruct (empty_outcome cfg env st ds') as (-> & _); [done|done|lia| |].
      * apply Hs. rewrite lookup_app_r by lia.
        by rewrite Nat.sub_diag.
      * rewrite length_fmap, length_pagesFrom. lia.
    + intros i S Hi. apply visible_after; [done|done|lia|lia].
  - replace (length ds' + 1)%nat with (length (ds' ++ [dl]))
      by (rewrite length_app; done).
    apply visible_after; [done| |rewrite length_app; simpl; lia].
    apply Forall_app. split; [done|]. by repeat constructor.
Qed.

End Visibility.

Section Invocation.

Context (cfg : Config.t) (env : Env).

(** Every endpoint stops a run in one of the three ways. *)
Lemma endsWith_exists : ∃ ds s, endsWith cfg env ds s.
Proof.
  destruct (run_shape cfg env)
    as (ds & Hs & Hne & [Hcap|[Hlt [Hempty|[e Hfail]]]]); exists ds.
  - by exists AtCap.
  - by exists AtEmptyPage.
  - by exists (AtFailure e).
Qed.

(** What a run does and leaves, by the way the endpoint stops it. *)
Lemma endsWith_outcome st ds s :
  endsWith cfg env ds s →
  requests (invoke cfg env st)
    = pageRequest cfg env <$> pagesFrom 1 (requestCount ds s)
  ∧ error (screen (invoke cfg env st))
    = match s with
      | AtFailure e => Some (errorMessage e)
      | AtCap | AtEmptyPage => None
      end
  ∧ allPrs (screen (invoke cfg env st))
    = match s, ds with
      | AtFailure _, [] => allPrs st
      | _, _ => concat ds
      end
  ∧ loading (screen (invoke cfg env st)) = false.
Proof.
  intros (Hs & Hne & Hstop). destruct s as [| |e].
  - destruct (cap_outcome cfg env st ds) as (? & ? & ? & ?); [done..|].
    by destruct ds.
  - destruct Hstop as [Hlt Hempty].
    destruct (empty_outcome cfg env st ds) as (? & ? & ? & ?); [done..|].
    by destruct ds.
  - destruct Hstop as [Hlt Hfail].
    destruct (fails_outcome cfg env st ds e) as (? & ? & ? & ?); [done..|].
    by destruct ds.
Qed.

Lemma first_page_answered st d :
  0 < Config.maxPages cfg → answers cfg env 1 d →
  ∃ ds, serves cfg env ds
        ∧ (length ds ≤ length (requests (invoke cfg env st)))%nat
        ∧ ∀ st', allPrs (screen (invoke cfg env st')) = concat ds.
Proof.
  intros Hmax Ha.
  destruct (run_shape cfg env)
    as (ds & Hs & Hne & [Hcap|[Hlt [Hempty|[e Hfail]]]]);
    exists ds; (split; [done|]).
  - split.
    + destruct (cap_outcome cfg env st ds) as (-> & _); [done..|].
      by rewrite length_fmap, length_pagesFrom.
    + intros st'. by destruct (cap_outcome cfg env st' ds) as (_ & _ & -> & _).
  - split.
    + destruct (empty_outcome cfg env st ds) as (-> & _); [done..|].
      rewrite length_fmap, length_pagesFrom. lia.
    + intros st'.
      by destruct (empty_outcome cfg env st' ds) as (_ & _ & -> & _).
  - split.
    + destruct (fails_outcome cfg env st ds e) as (-> & _); [done..|].
      rewrite length_fmap, length_pagesFrom. lia.
    + intros st'.
      destruct (fails_outcome cfg env st' ds e) as (_ & _ & -> & _); [done..|].
      destruct ds; [|done].
      by destruct (answers_not_fails cfg env 1 d e).
Qed.

Lemma first_page_fails st e :
  0 < Config.maxPages cfg → fails cfg env 1 e →
  allPrs (screen (invoke cfg env st)) = allPrs st
  ∧ error (screen (invoke cfg env st)) = Some (errorMessage e)
  ∧ requests (invoke cfg env st) = [pageRequest cfg env 1].
Proof.
  intros Hmax Hfail.
  destruct (fails_outcome cfg env st [] e) as (-> & -> & -> & _);
    [done|constructor|simpl; lia|done|done].
Qed.

Lemma run_ignores_prior_state st st' :
  requests (invoke cfg env st) = requests (invoke cfg env st')
  ∧ error (screen (invoke cfg env st)) = error (screen (invoke cfg env st'))
  ∧ loading (screen (invoke cfg env st)) = false.
Proof.
  destruct (run_shape cfg env)
    as (ds & Hs & Hne & [Hcap|[Hlt [Hempty|[e Hfail]]]]).
  - destruct (cap_outcome cfg env st ds) as (-> & -> & _ & ->); [done..|].
    by destruct (cap_outcome cfg env st' ds) as (-> & -> & _).
  - destruct (empty_outcome cfg env st ds) as (-> & -> & _ & ->); [done..|].
    by destruct (empty_outcome cfg env st' ds) as (-> & -> & _).
  - destruct (fails_outcome cfg env st ds e) as (-> & -> & _ & ->); [done..|].
    by destruct (fails_outcome cfg env st' ds e) as (-> & -> & _).
Qed.

Lemma first_request st :
  0 < Config.maxPages cfg →
  head (requests (invoke cfg env st)) = Some (pageRequest cfg env 1).
Proof.
  intros Hmax.
  destruct (run_shape cfg env)
    as (ds & Hs & Hne & [Hcap|[Hlt [Hempty|[e Hfail]]]]).
  - destruct (cap_outcome cfg env st ds) as (-> & _); [done..|].
    destruct ds; [simpl in Hcap; lia|done].
  - by destruct (empty_outcome cfg env st ds) as (-> & _).
  - by destruct (fails_outcome cfg env st ds e) as (-> & _).
Qed.

(** C7, amended.  Whatever state the component is in, a run issues the
    same requests, beginning with page 1, and ends with the same error.
    When page 1 resolves successfully the accumulated list the run leaves
    is replaced by the records this run fetched: with the non-empty pages
    [ds] served before the run stops (at the cap, at an empty page, or at
    a failing page after at least one page), the run requests exactly the
    pages up to the one that stops it and leaves [concat ds], whatever was
    accumulated before.  When page 1 makes the loop throw, the accumulated
    list is left as it was before the run.  Every endpoint stops the run
    in one of these ways. *)
Theorem fetchPullRequests_restart st :
  (∀ st', requests (invoke cfg env st) = requests (invoke cfg env st')
          ∧ error (screen (invoke cfg env st))
            = error (screen (invoke cfg env st')))
  ∧ (0 < Config.maxPages cfg →
     head (requests (invoke cfg env st)) = Some (pageRequest cfg env 1))
  ∧ (∀ d, 0 < Config.maxPages cfg → answers cfg env 1 d →
       ∃ ds, serves cfg env ds
             ∧ (length ds ≤ length (requests (invoke cfg env st)))%nat
             ∧ ∀ st', allPrs (screen (invoke cfg env st')) = concat ds)
  ∧ (∀ e, 0 < Config.maxPages cfg → fails cfg env 1 e →
       allPrs (screen (invoke cfg env st)) = allPrs st)
  ∧ (∃ ds s, endsWith cfg env ds s)
  ∧ (∀ ds s, endsWith cfg env ds s →
       ds ≠ [] ∨ (∀ e, s ≠ AtFailure e) →
       ∀ st',
         requests (invoke cfg env st')
           = pageRequest cfg env <$> pagesFrom 1 (requestCount ds s)
         ∧ allPrs (screen (invoke cfg env st')) = concat ds)
  ∧ (∀ e, endsWith cfg env [] (AtFailure e) →
       requests (invoke cfg env st) = [pageRequest cfg env 1]
       ∧ allPrs (screen (invoke cfg env st)) = allPrs st).
Proof.
  split_and!.
  - intros st'. by destruct (run_ignores_prior_state st st') as (? & ? & _).
  - apply first_request.
  - intros d. apply first_page_answered.
  - intros e Hmax Hfail. by destruct (first_page_fails st e) as (? & _).
  - apply endsWith_exists.
  - intros ds s Hends Hfirst st'.
    destruct (endsWith_outcome st' ds s Hends) as (Hreq & _ & Hall & _).
    split; [done|]. rewrite Hall.
    destruct s as [| |e]; [done..|]. destruct ds; [|done].
    destruct Hfirst as [?|Hs]; [done|]. by destruct (Hs e).
  - intros e Hends.
    by destruct (endsWith_outcome st [] (AtFailure e) Hends) as (? & _ & ? & _).
Qed.

Lemma requestHeaders_token token :
  GITHUB_TOKEN env = Some token → token ≠ [] →
  requestHeaders env
  = [(lit "Accept", lit "application/vnd.github.v3+json");
     (lit "Authorization", lit "token " ++ token)].
Proof.
  intros Henv Htoken. unfold requestHeaders. rewrite Henv.
  by apply truthy_spec in Htoken as ->.
Qed.

Lemma requestHeaders_no_token :
  GITHUB_TOKEN env = None ∨ GITHUB_TOKEN env = Some [] →
  requestHeaders env = [(lit "Accept", lit "application/vnd.github.v3+json")].
Proof. unfold requestHeaders. by intros [->| ->]. Qed.

Lemma headers_of_requests st :
  Forall (λ req, headers req = requestHeaders env)
         (requests (invoke cfg env st)).
Proof.
  destruct (requests_invoke cfg env st) as (m & _ & ->).
  apply Forall_forall. by intros req (page & -> & _)%list_elem_of_fmap.
Qed.

Lemma error_only_from_failing_page st :
  error (screen (invoke cfg env st)) = None
  ∨ ∃ page e, pageRequest cfg env page ∈ requests (invoke cfg env st)
              ∧ fails cfg env page e
              ∧ error (screen (invoke cfg env st)) = Some (errorMessage e).
Proof.
  destruct (run_shape cfg env)
    as (ds & Hs & Hne & [Hcap|[Hlt [Hempty|[e Hfail]]]]).
  - left. by destruct (cap_outcome cfg env st ds) as (_ & -> & _).
  - left. by destruct (empty_outcome cfg env st ds) as (_ & -> & _).
  - right. exists (1 + N.of_nat (length ds)), e.
    destruct (fails_outcome cfg env st ds e) as (-> & -> & _); [done..|].
    split_and!; [|done..]. apply elem_of_page_requests. lia.
Qed.

(** C8. With a non-empty [GITHUB_TOKEN] in the environment every request
    of a run has the headers [Accept] and [Authorization: token <it>];
    with the variable unset (or empty, which JavaScript treats alike)
    every request has the [Accept] header alone.  The requests are fixed
    with their headers: when the endpoint serves the non-empty pages [ds]
    and then stops the run, the run issues, in order, the requests of the
    pages up to the one that stops it, each with the page's URL and these
    headers; there is at least one when the page cap is not zero.  The
    credential has no part in errors: a run ends with an error only when
    a page it requested failed, and without credential a run that the
    endpoint does not stop by a failure ends without error, not loading,
    with [concat ds] accumulated. *)
Theorem fetchPullRequests_credential st :
  (∀ token, GITHUB_TOKEN env = Some token → token ≠ [] →
     Forall (λ req, headers req
                    = [(lit "Accept", lit "application/vnd.github.v3+json");
                       (lit "Authorization", lit "token " ++ token)])
            (requests (invoke cfg env st)))
  ∧ (GITHUB_TOKEN env = None ∨ GITHUB_TOKEN env = Some [] →
     Forall (λ req, headers req
                    = [(lit "Accept", lit "application/vnd.github.v3+json")])
            (requests (invoke cfg env st)))
  ∧ (error (screen (invoke cfg env st)) = None
     ∨ ∃ page e, pageRequest cfg env page ∈ requests (invoke cfg env st)
                 ∧ fails cfg env page e
                 ∧ error (screen (invoke cfg env st)) = Some (errorMessage e))
  ∧ (GITHUB_TOKEN env = None → (∀ page, ∃ d, answers cfg env page d) →
     error (screen (invoke cfg env st)) = None)
  ∧ (∃ ds s, endsWith cfg env ds s)
  ∧ (∀ ds s token,
       endsWith cfg env ds s →
       GITHUB_TOKEN env = Some token → token ≠ [] →
       requests (invoke cfg env st)
       = (λ page,
            {| url := requestUrl cfg page;
               headers :=
                 [(lit "Accept", lit "application/vnd.github.v3+json");
                  (lit "Authorization", lit "token " ++ token)] |})
         <$> pagesFrom 1 (requestCount ds s))
  ∧ (∀ ds s,
       endsWith cfg env ds s →
       GITHUB_TOKEN env = None ∨ GITHUB_TOKEN env = Some [] →
       requests (invoke cfg env st)
       = (λ page,
            {| url := requestUrl cfg page;
               headers :=
                 [(lit "Accept", lit "application/vnd.github.v3+json")] |})
         <$> pagesFrom 1 (requestCount ds s)
       ∧ ((∀ e, s ≠ AtFailure e) →
          error (screen (invoke cfg env st)) = None
          ∧ loading (screen (invoke cfg env st)) = false
          ∧ allPrs (screen (invoke cfg env st)) = concat ds))
  ∧ (0 < Config.maxPages cfg → requests (invoke cfg env st) ≠ []).
Proof.
  split_and!.
  - intros token Henv Htoken. rewrite <- (requestHeaders_token token) by done.
    apply headers_of_requests.
  - intros Henv. rewrite <- requestHeaders_no_token by done.
    apply headers_of_requests.
  - apply error_only_from_failing_page.
  - intros _ Hall.
    destruct (error_only_from_failing_page st) as [?|(page & e & _ & Hf & _)];
      [done|].
    destruct (Hall page) as [d Hd].
    by destruct (answers_not_fails cfg env page d e).
  - apply endsWith_exists.
  - intros ds s token Hends Henv Htoken.
    destruct (endsWith_outcome st ds s Hends) as (-> & _).
    apply list_fmap_ext. intros _ page _. unfold pageRequest.
    by rewrite (requestHeaders_token token).
  - intros ds s Hends Henv.
    destruct (endsWith_outcome st ds s Hends) as (-> & Herr & Hall & Hl).
    split.
    + apply list_fmap_ext. intros _ page _. unfold pageRequest.
      by rewrite requestHeaders_no_token.
    + intros Hs. destruct s as [| |e]; [done..|]. by destruct (Hs e).
  - intros Hmax Hnil. pose proof (first_request st Hmax) as Hhead.
    by rewrite Hnil in Hhead.
Qed.

End Invocation.

(** ** Concrete runs *)

Example three_pages_run :
  url <$> requests (invoke config threePages initialState)
    = (λ page, lit "https://api.github.com/repos/expo/expo/pulls"
               ++ lit "?state=open&per_page=100&page=" ++ lit page)
      <$> ["1"; "2"; "3"]%string
  ∧ (λ S, (length (allPrs S), loading S)) <$>
      visible (invoke config threePages initialState)
    = [(0, true); (100, false); (200, false); (200, false)]%nat.
Proof. split; vm_compute; reflexivity. Qed.

Lemma fetchPullRequests_pagination_witness :
  (requests (invoke config threePages initialState)
     = pageRequest config threePages <$> [1; 2; 3]
   ∧ length (allPrs (screen (invoke config threePages initialState)))
     = 200%nat)
  ∧ requests (invoke config endless initialState)
    = pageRequest config endless <$> [1; 2; 3; 4; 5]
  ∧ length (allPrs (screen (invoke config endless initialState))) = 500%nat.
Proof.
  split.
  - destruct (fetchPullRequests_pagination config threePages initialState)
      as (_ & _ & _ & _ & H & _).
    destruct (H (samplePage 0 100) (samplePage 100 100))
      as (Hreq & _ & _ & Hlen).
    + reflexivity.
    + reflexivity.
    + vm_compute. discriminate.
    + answered_with (samplePage 0 100).
    + answered_with (samplePage 100 100).
    + answered_with (@nil PullRequest.t).
    + split; [exact Hreq|exact Hlen].
  - destruct (fetchPullRequests_pagination config endless initialState)
      as (_ & _ & _ & _ & _ & H).
    destruct H as (Hreq & _ & _).
    + reflexivity.
    + intros page. exists (samplePage 0 100). split; [discriminate|].
      exists {| status := 200; statusText := lit "OK";
                json := Fulfilled (samplePage 0 100) |}.
      split_and!; reflexivity.
    + split; [exact Hreq|]. vm_compute. reflexivity.
Defined.

Lemma fetchPullRequests_incremental_visibility_witness :
  (1 < length (visible (invoke config forbiddenOnPage2 initialState)))%nat
  ∧ ∀ (i : nat) S, (1 ≤ i)%nat →
      visible (invoke config forbiddenOnPage2 initialState) !! i = Some S →
      samplePage 0 100 `prefix_of` allPrs S.
Proof.
  destruct (fetchPullRequests_incremental_visibility
              config forbiddenOnPage2 initialState [samplePage 0 100])
    as (Hlen & Hshown).
  - intros [|i] d Hi; simplify_eq/=. answered_with (samplePage 0 100).
  - discriminate.
  - vm_compute. lia.
  - intros i d Hi Hlt. simpl in Hlt. lia.
  - split; [exact Hlen|].
    intros i S Hi HS. rewrite <- (app_nil_r (samplePage 0 100)).
    exact (Hshown i S Hi HS).
Defined.

(** C7 as stated fails: after a first run accumulated one record and
    stopped on status 403, a retry whose first page comes back with status
    503 fetches no record, yet the accumulated list still holds the record
    of the first run. *)
Lemma retry_keeps_stale_data :
  allPrs afterFailedRun = [samplePR 7]
  ∧ requests (invoke config unavailable afterFailedRun)
    = [pageRequest config unavailable 1]
  ∧ concat (bodyOf unavailable <$>
              requests (invoke config unavailable afterFailedRun)) = []
  ∧ allPrs (screen (invoke config unavailable afterFailedRun))
    = [samplePR 7]
  ∧ allPrs (screen (invoke config unavailable afterFailedRun))
    ≠ concat (bodyOf unavailable <$>
                requests (invoke config unavailable afterFailedRun)).
Proof. split_and!; vm_compute; (reflexivity || discriminate). Qed.

Lemma fetchPullRequests_restart_witness :
  (allPrs (screen (invoke config unavailable afterFailedRun))
     = allPrs afterFailedRun
   ∧ allPrs afterFailedRun = [samplePR 7])
  ∧ (requests (invoke config threePages afterFailedRun)
       = pageRequest config threePages <$> [1; 2; 3]
     ∧ allPrs (screen (invoke config threePages afterFailedRun))
       = samplePage 0 100 ++ samplePage 100 100)
  ∧ ∃ ds,
      serves config threePages ds
      ∧ (length ds
         ≤ length (requests (invoke config threePages afterFailedRun)))%nat
      ∧ ∀ st', allPrs (screen (invoke config threePages st')) = concat ds.
Proof.
  split; [|split].
  - destruct (fetchPullRequests_restart config unavailable afterFailedRun)
      as (_ & _ & _ & H & _).
    split; [|vm_compute; reflexivity].
    apply (H (statusError {| status := 503;
                             statusText := lit "Service Unavailable";
                             json := Rejected (ErrorObject
                                                 (lit "Unexpected token")) |})).
    + reflexivity.
    + right; left. eexists. split_and!; reflexivity.
  - destruct (fetchPullRequests_restart config threePages afterFailedRun)
      as (_ & _ & _ & _ & _ & H & _).
    destruct (H [samplePage 0 100; samplePage 100 100] AtEmptyPage)
      with (st' := afterFailedRun) as (Hreq & Hall).
    + split_and!.
      * intros [|[|i]] d Hi; simplify_eq/=.
        -- answered_with (samplePage 0 100).
        -- answered_with (samplePage 100 100).
      * repeat constructor; discriminate.
      * vm_compute. lia.
      * answered_with (@nil PullRequest.t).
    + by left.
    + split; [exact Hreq|].
      rewrite Hall. vm_compute. reflexivity.
  - destruct (fetchPullRequests_restart config threePages afterFailedRun)
      as (_ & _ & H & _).
    apply (H (samplePage 0 100)).
    + reflexivity.
    + answered_with (samplePage 0 100).
Defined.

Lemma fetchPullRequests_credential_witness :
  Forall (λ req, headers req
                 = [(lit "Accept", lit "application/vnd.github.v3+json");
                    (lit "Authorization", lit "token ghp_abc")])
         (requests (invoke config withToken initialState))
  ∧ Forall (λ req, headers req
                   = [(lit "Accept", lit "application/vnd.github.v3+json")])
           (requests (invoke config threePages initialState))
  ∧ error (screen (invoke config endless initialState)) = None
  ∧ requests (invoke config withToken initialState)
    = (λ page,
         {| url := requestUrl config page;
            headers :=
              [(lit "Accept", lit "application/vnd.github.v3+json");
               (lit "Authorization", lit "token ghp_abc")] |})
      <$> [1; 2; 3]
  ∧ (requests (invoke config threePages initialState)
     = (λ page,
          {| url := requestUrl config page;
             headers :=
               [(lit "Accept", lit "application/vnd.github.v3+json")] |})
       <$> [1; 2; 3]
     ∧ error (screen (invoke config threePages initialState)) = None
     ∧ allPrs (screen (invoke config threePages initialState))
       = samplePage 0 100 ++ samplePage 100 100).
Proof.
  split; [|split; [|split; [|split]]].
  - destruct (fetchPullRequests_credential config withToken initialState)
      as (H & _).
    apply (H (lit "ghp_abc")); [reflexivity|discriminate].
  - destruct (fetchPullRequests_credential config threePages initialState)
      as (_ & H & _).
    apply H. by left.
  - destruct (fetchPullRequests_credential config endless initialState)
      as (_ & _ & _ & H & _).
    apply H; [reflexivity|]. intros page. exists (samplePage 0 100).
    exists {| status := 200; statusText := lit "OK";
              json := Fulfilled (samplePage 0 100) |}.
    split_and!; reflexivity.
  - destruct (fetchPullRequests_credential config withToken initialState)
      as (_ & _ & _ & _ & _ & H & _).
    apply (H [samplePage 0 100; samplePage 100 100] AtEmptyPage
             (lit "ghp_abc")); [|reflexivity|discriminate].
    split_and!.
    + intros [|[|i]] d Hi; simplify_eq/=.
      * answered_with (samplePage 0 100).
      * answered_with (samplePage 100 100).
    + repeat constructor; discriminate.
    + vm_compute. lia.
    + answered_with (@nil PullRequest.t).
  - destruct (fetchPullRequests_credential config threePages initialState)
      as (_ & _ & _ & _ & _ & _ & H & _).
    destruct (H [samplePage 0 100; samplePage 100 100] AtEmptyPage)
      as (Hreq & Hok).
    + split_and!.
      * intros [|[|i]] d Hi; simplify_eq/=.
        -- answered_with (samplePage 0 100).
        -- answered_with (samplePage 100 100).
      * repeat constructor; discriminate.
      * vm_compute. lia.
      * answered_with (@nil PullRequest.t).
    + by left.
    + destruct Hok as (Herr & _ & Hall); [done|].
      split_and!; [exact Hreq|exact Herr|].
      rewrite Hall. vm_compute. reflexivity.
Defined.

(** ** Concrete edits and filtering *)

Example add_examples :
  excludedAuthors (add (lit "") initialState)
    = Config.excludedAuthors config
  ∧ excludedAuthors (add (lit "   ") initialState)
    = Config.excludedAuthors config
  ∧ excludedAuthors (add (lit " Kudo ") initialState)
    = Config.excludedAuthors config
  ∧ excludedAuthors (add (lit "kudo") initialState)
    = Config.excludedAuthors config ++ [lit "kudo"]
  ∧ newAuthor (add (lit "kudo") initialState) = []
  ∧ newAuthor (add (lit " Kudo ") initialState) = lit " Kudo ".
Proof. split_and!; vm_compute; reflexivity. Qed.

Example filterPRs_example :
  PullRequest.id <$>
    prs (filterPRs
           (setExcludedAuthors [lit "octocat"]
              (setAllPrs
                 [samplePR 1;
                  {| PullRequest.id := 2; PullRequest.number := 2;
                     PullRequest.title := lit "Add feature";
                     PullRequest.user := {| User.login := lit "Octocat";
                                            User.avatar_url := [] |};
                     PullRequest.html_url := []; PullRequest.created_at := [];
                     PullRequest.updated_at := [];
                     PullRequest.state := lit "open";
                     PullRequest.labels := []; PullRequest.assignees := [];
                     PullRequest.requested_reviewers := [] |};
                  samplePR 3]
                 initialState)))
  = [2%Z].
Proof. vm_compute. reflexivity. Qed.

Lemma add_trims_then_appends_witness :
  excludedAuthors (add (lit "  alice  ") initialState)
    = Config.excludedAuthors config ++ [lit "alice"]
  ∧ excludedAuthors (add (lit " vonovak ") initialState)
    = Config.excludedAuthors config
  ∧ excludedAuthors (add (lit "   ") initialState)
    = Config.excludedAuthors config.
Proof.
  split_and!.
  - destruct (add_trims_then_appends initialState (lit "  alice  "))
      as (_ & _ & H & _).
    apply H; [discriminate|]. apply (bool_decide_unpack _). vm_compute. exact I.
  - destruct (add_trims_then_appends initialState (lit " vonovak "))
      as (_ & H & _).
    apply H. apply (bool_decide_unpack _). vm_compute. exact I.
  - destruct (add_trims_then_appends initialState (lit "   ")) as (H & _).
    apply H. reflexivity.
Defined.

Lemma remove_exact_entry_witness :
  excludedAuthors (remove (lit "douglowder") initialState)
    = [lit "jonsamp"; lit "HubertBer"]
      ++ drop 3 (Config.excludedAuthors config)
  ∧ excludedAuthors (remove (lit "alice") initialState)
    = Config.excludedAuthors config.
Proof.
  split.
  - destruct (remove_exact_entry initialState (lit "douglowder"))
      as (_ & H & _).
    apply H; [reflexivity|..]; apply (bool_decide_unpack _); vm_compute;
      exact I.
  - destruct (remove_exact_entry initialState (lit "alice")) as (H & _).
    apply H. apply (bool_decide_unpack _). vm_compute. exact I.
Defined.


(** * Further properties *)

(** ** The excluded-author editor *)

Lemma truthy_false s : truthy s = false ↔ s = [].
Proof.
  unfold truthy. rewrite bool_decide_eq_false. destruct s; split.
  - done.
  - intros _ H. by apply H.
  - intros H. by destruct H.
  - done.
Qed.

Lemma elem_of_add x s st :
  x ∈ excludedAuthors (add s st)
  ↔ x ∈ excludedAuthors st ∨ (x = trim s ∧ x ≠ []).
Proof.
  rewrite excludedAuthors_add.
  destruct (truthy (trim s)) eqn:Ht; simpl.
  - apply truthy_spec in Ht.
    destruct (includes (excludedAuthors st) (trim s)) eqn:Hi; simpl.
    + apply includes_spec in Hi. split; [by left|]. by intros [?|[-> _]].
    + rewrite elem_of_app, list_elem_of_singleton.
      split; (intros [?|H]; [by left|right]); [by subst|by destruct H].
  - apply truthy_false in Ht. split; [by left|].
    intros [?|[-> Hx]]; [done|]. by destruct Hx.
Qed.

Lemma elem_of_remove x s st :
  x ∈ excludedAuthors (remove s st) ↔ x ∈ excludedAuthors st ∧ x ≠ s.
Proof. rewrite excludedAuthors_remove, list_elem_of_filter. tauto. Qed.

(** X1.  After [add s] the excluded list holds what it held and, unless it is
    empty, the trimmed [s]; after [remove s] it holds what it held except
    [s]. *)
Theorem editor_membership (st : HomeScreen) (s x : jsstring) :
  (x ∈ excludedAuthors (add s st)
   ↔ x ∈ excludedAuthors st ∨ (x = trim s ∧ x ≠ []))
  ∧ (x ∈ excludedAuthors (remove s st) ↔ x ∈ excludedAuthors st ∧ x ≠ s).
Proof. split; [apply elem_of_add|apply elem_of_remove]. Qed.

Lemma add_twice s st :
  excludedAuthors (add s (add s st)) = excludedAuthors (add s st).
Proof.
  apply excludedAuthors_add_noop.
  destruct (decide (trim s = [])) as [?|Hne]; [by left|right].
  apply elem_of_add. by right.
Qed.

Lemma remove_twice s st :
  excludedAuthors (remove s (remove s st)) = excludedAuthors (remove s st).
Proof. rewrite !excludedAuthors_remove. apply filter_idemp. Qed.

(** X2.  Repeating an edit changes nothing more: a second [add s] finds the
    trimmed [s] in the list (or empty), a second [remove s] finds no
    [s]. *)
Theorem edits_idempotent (st : HomeScreen) (s : jsstring) :
  excludedAuthors (add s (add s st)) = excludedAuthors (add s st)
  ∧ excludedAuthors (remove s (remove s st)) = excludedAuthors (remove s st).
Proof. split; [apply add_twice|apply remove_twice]. Qed.

Lemma remove_remove a b st :
  excludedAuthors (remove a (remove b st))
  = excludedAuthors (remove b (remove a st)).
Proof.
  rewrite !excludedAuthors_remove. simpl. rewrite !list_filter_filter.
  apply list_filter_iff. tauto.
Qed.

Lemma remove_add a b st :
  b ≠ trim a →
  excludedAuthors (remove b (add a st))
  = excludedAuthors (add a (remove b st)).
Proof.
  intros Hb.
  rewrite excludedAuthors_remove, !excludedAuthors_add, excludedAuthors_remove.
  assert (includes (filter (λ x, x ≠ b) (excludedAuthors st)) (trim a)
          = includes (excludedAuthors st) (trim a)) as ->.
  { unfold includes. apply bool_decide_ext.
    rewrite list_elem_of_filter. split; [by intros [_ ?]|done]. }
  destruct (truthy (trim a) && _); [|done].
  by rewrite filter_app, filter_cons_True, filter_nil.
Qed.

(** X3.  Edits of different logins commute: two removals in either order, and
    a removal with the addition of another login, leave the same list. *)
Theorem edits_commute (st : HomeScreen) (a b : jsstring) :
  excludedAuthors (remove a (remove b st))
  = excludedAuthors (remove b (remove a st))
  ∧ (b ≠ trim a →
     excludedAuthors (remove b (add a st))
     = excludedAuthors (add a (remove b st))).
Proof. split; [apply remove_remove|apply remove_add]. Qed.

Lemma Forall_tidy_add s st :
  Forall tidy (excludedAuthors st) → Forall tidy (excludedAuthors (add s st)).
Proof.
  rewrite !Forall_forall. intros H x [?|[-> Hx]]%elem_of_add; [by apply H|].
  split; [done|apply trim_idemp].
Qed.

Lemma Forall_tidy_remove s st :
  Forall tidy (excludedAuthors st) →
  Forall tidy (excludedAuthors (remove s st)).
Proof.
  rewrite !Forall_forall. intros H x [? _]%elem_of_remove. by apply H.
Qed.

Lemma Forall_tidy_config : Forall tidy (Config.excludedAuthors config).
Proof. apply (bool_decide_unpack _). vm_compute. exact I. Qed.

(** X4.  From the configured default, every sequence of edits leaves only
    entries that are not empty and carry no surrounding whitespace. *)
Theorem excludedAuthors_tidy (es : list edit) :
  Forall tidy (excludedAuthors (applyEdits es initialState)).
Proof.
  unfold applyEdits.
  assert (Forall tidy (excludedAuthors initialState)) as H
    by apply Forall_tidy_config.
  revert H. generalize initialState.
  induction es as [|[s|s] es IH]; intros st H; simpl; [done|..]; apply IH.
  - by apply Forall_tidy_add.
  - by apply Forall_tidy_remove.
Qed.

(** X5.  [add] empties the text field exactly when it appends; a rejected input
    (blank, or already excluded) stays in the field as typed. *)
Theorem add_text_field (st : HomeScreen) (s : jsstring) :
  (trim s ≠ [] → trim s ∉ excludedAuthors st → newAuthor (add s st) = [])
  ∧ (trim s = [] ∨ trim s ∈ excludedAuthors st → newAuthor (add s st) = s).
Proof.
  unfold add, addExcludedAuthor. simpl. split.
  - intros Hne%truthy_spec Hnew%not_includes_spec. rewrite Hne.
    by destruct (includes (excludedAuthors st) (trim s)).
  - intros [Hs|Hs].
    + apply truthy_false in Hs. by rewrite Hs.
    + apply includes_spec in Hs. rewrite Hs. by rewrite andb_false_r.
Qed.

Lemma add_text_field_witness :
  newAuthor (add (lit " alice ") initialState) = []
  ∧ newAuthor (add (lit " Kudo ") initialState) = lit " Kudo ".
Proof.
  split.
  - destruct (add_text_field initialState (lit " alice ")) as (H & _).
    apply H; [discriminate|]. apply (bool_decide_unpack _). vm_compute. exact I.
  - destruct (add_text_field initialState (lit " Kudo ")) as (_ & H).
    apply H. right. apply (bool_decide_unpack _). vm_compute. exact I.
Defined.

(** ** The filter and its effect *)

Lemma shown_eq st :
  prs (filterPRs st)
  = filter (λ r, User.login (PullRequest.user r) ∉ excludedAuthors st)
           (allPrs st).
Proof. simpl. apply list_filter_iff. intros r. apply not_includes_spec. Qed.

Lemma shown_ext st E E' :
  (∀ x, x ∈ E ↔ x ∈ E') →
  prs (filterPRs (setExcludedAuthors E st))
  = prs (filterPRs (setExcludedAuthors E' st)).
Proof.
  intros H. rewrite !shown_eq. simpl. apply list_filter_iff.
  intros r. by rewrite H.
Qed.

Lemma shown_mono st E E' :
  (∀ x, x ∈ E → x ∈ E') →
  prs (filterPRs (setExcludedAuthors E' st))
  `sublist_of` prs (filterPRs (setExcludedAuthors E st)).
Proof.
  intros H. rewrite !shown_eq. simpl.
  apply filter_greatest; [apply sublist_filter|].
  apply Forall_forall. intros r [Hr _]%list_elem_of_filter. auto.
Qed.

Lemma filterPRs_excluded st :
  filterPRs st = filterPRs (setExcludedAuthors (excludedAuthors st) st).
Proof. by destruct st. Qed.

Lemma shown_add s st :
  prs (filterPRs (add s st))
  = prs (filterPRs (setExcludedAuthors (excludedAuthors (add s st)) st)).
Proof.
  unfold add, addExcludedAuthor. simpl. by destruct (truthy (trim s) && _).
Qed.

Lemma shown_remove s st :
  prs (filterPRs (remove s st))
  = prs (filterPRs (setExcludedAuthors (excludedAuthors (remove s st)) st)).
Proof. done. Qed.

(** X7.  The shown list depends on which logins are excluded only: two excluded
    lists with the same entries, in whatever order and multiplicity, show
    the same records. *)
Theorem shown_depends_on_membership (st : HomeScreen) (E E' : list jsstring) :
  (∀ x, x ∈ E ↔ x ∈ E') →
  prs (filterPRs (setExcludedAuthors E st))
  = prs (filterPRs (setExcludedAuthors E' st)).
Proof. apply shown_ext. Qed.

Lemma shown_depends_on_membership_witness :
  prs (filterPRs (setExcludedAuthors [lit "octocat"; lit "kitten"]
                    (setAllPrs (samplePage 0 3) initialState)))
  = prs (filterPRs (setExcludedAuthors
                      [lit "kitten"; lit "octocat"; lit "kitten"]
                      (setAllPrs (samplePage 0 3) initialState))).
Proof.
  apply shown_depends_on_membership. intros x.
  rewrite !elem_of_cons, !elem_of_nil. tauto.
Defined.

(** X8.  Excluding more shows less: when every entry of [E] is in [E'], what is
    shown under [E'] is a sublist of what is shown under [E].  So an [add]
    only takes records away from the shown list and a [remove] only gives
    records back, the others staying in place. *)
Theorem excluding_more_shows_less (st : HomeScreen) (s : jsstring) :
  (∀ E E', (∀ x, x ∈ E → x ∈ E') →
     prs (filterPRs (setExcludedAuthors E' st))
     `sublist_of` prs (filterPRs (setExcludedAuthors E st)))
  ∧ (prs (filterPRs (add s st)) `sublist_of` prs (filterPRs st))
  ∧ (prs (filterPRs st) `sublist_of` prs (filterPRs (remove s st))).
Proof.
  split_and!.
  - intros E E'. apply shown_mono.
  - rewrite shown_add, (filterPRs_excluded st).
    apply (shown_mono st (excludedAuthors st)).
    intros x Hx. apply elem_of_add. by left.
  - rewrite shown_remove, (filterPRs_excluded st).
    apply (shown_mono st). by intros x [? _]%elem_of_remove.
Qed.

Lemma length_filter_eq {A} (P : A → Prop) `{!∀ x, Decision (P x)} l :
  length (filter P l) = length l ↔ Forall P l.
Proof.
  split; [|intros Hall; by rewrite filter_all].
  induction l as [|x l IH]; [constructor|].
  rewrite filter_cons. destruct (decide (P x)); simpl.
  - intros [= Hlen]. constructor; auto.
  - intros Hlen. pose proof (length_filter P l). lia.
Qed.

(** X9.  The header's two numbers: never more records shown than accumulated;
    as many exactly when no accumulated record is by an excluded author,
    as with an empty excluded list. *)
Theorem shown_count (st : HomeScreen) :
  (length (prs (filterPRs st)) ≤ length (allPrs st))%nat
  ∧ (length (prs (filterPRs st)) = length (allPrs st)
     ↔ Forall (λ r, User.login (PullRequest.user r) ∉ excludedAuthors st)
              (allPrs st))
  ∧ (excludedAuthors st = [] → prs (filterPRs st) = allPrs st).
Proof.
  rewrite shown_eq. split_and!.
  - apply length_filter.
  - apply length_filter_eq.
  - intros ->. apply filter_all, Forall_forall. intros r _.
    apply not_elem_of_nil.
Qed.

Lemma add_frame s st :
  prs (add s st) = prs st ∧ allPrs (add s st) = allPrs st
  ∧ loading (add s st) = loading st ∧ error (add s st) = error st
  ∧ showSettings (add s st) = showSettings st.
Proof.
  unfold add, addExcludedAuthor. simpl. by destruct (truthy (trim s) && _).
Qed.

(** X10.  With the shown list up to date, excluding one more author takes that
    author's records out of the shown list and leaves the rest as it is
    (also when the login was excluded already: nothing of it is shown). *)
Theorem add_hides_author (st : HomeScreen) (s : jsstring) :
  consistent st → trim s ≠ [] →
  prs (handleEdit st (Add s))
  = filter (λ r, User.login (PullRequest.user r) ≠ trim s) (prs st).
Proof.
  intros Hc Hne. unfold handleEdit, effectRuns.
  change (applyEdit st (Add s)) with (add s st).
  apply truthy_spec in Hne as Ht. rewrite Ht.
  red in Hc. rewrite shown_eq in Hc.
  destruct (includes (excludedAuthors st) (trim s)) eqn:Hi; cbn [andb negb].
  - apply includes_spec in Hi.
    destruct (add_frame s st) as (-> & _).
    symmetry. apply filter_all. rewrite Hc. apply Forall_forall.
    intros r [Hr _]%list_elem_of_filter Heq. apply Hr. by rewrite Heq.
  - rewrite shown_eq, Hc, list_filter_filter.
    destruct (add_frame s st) as (_ & -> & _).
    apply list_filter_iff. intros r.
    rewrite excludedAuthors_add, Ht, Hi. simpl.
    rewrite not_elem_of_app, list_elem_of_singleton. tauto.
Qed.

Lemma add_hides_author_witness :
  prs (handleEdit (filterPRs (setAllPrs (samplePage 0 3) initialState))
         (Add (lit " octocat ")))
  = filter (λ r, User.login (PullRequest.user r) ≠ lit "octocat")
      (samplePage 0 3).
Proof.
  apply (add_hides_author
           (filterPRs (setAllPrs (samplePage 0 3) initialState))
           (lit " octocat ")).
  - reflexivity.
  - discriminate.
Defined.

(** X11.  After [remove s] and the effect, a record is shown exactly when it is
    accumulated and its author is not excluded or is [s]: the records of
    [s] come back, in their place in the accumulated order. *)
Theorem remove_restores_author (st : HomeScreen) (s : jsstring) :
  (∀ r, r ∈ prs (handleEdit st (Remove s))
        ↔ r ∈ allPrs st
          ∧ (User.login (PullRequest.user r) ∉ excludedAuthors st
             ∨ User.login (PullRequest.user r) = s))
  ∧ prs (handleEdit st (Remove s)) `sublist_of` allPrs st.
Proof.
  unfold handleEdit. simpl effectRuns. cbv iota.
  change (applyEdit st (Remove s)) with (remove s st).
  rewrite shown_eq. split; [|apply sublist_filter].
  intros r. rewrite list_elem_of_filter, elem_of_remove.
  change (allPrs (remove s st)) with (allPrs st).
  destruct (decide (User.login (PullRequest.user r) = s)); tauto.
Qed.

Lemma excludedAuthors_applyEdit st st' e :
  excludedAuthors st = excludedAuthors st' →
  excludedAuthors (applyEdit st e) = excludedAuthors (applyEdit st' e).
Proof.
  intros H. destruct e as [s|s]; cbn [applyEdit].
  - by rewrite !excludedAuthors_add, H.
  - by rewrite !excludedAuthors_remove, H.
Qed.

Lemma handleEdit_step st e :
  consistent st →
  consistent (handleEdit st e)
  ∧ excludedAuthors (handleEdit st e) = excludedAuthors (applyEdit st e)
  ∧ allPrs (handleEdit st e) = allPrs st
  ∧ loading (handleEdit st e) = loading st
  ∧ error (handleEdit st e) = error st.
Proof.
  intros Hc. unfold handleEdit. destruct e as [s|s]; simpl effectRuns.
  - unfold applyEdit, add, addExcludedAuthor. simpl.
    destruct (truthy (trim s) && _); [done|]. by destruct st.
  - done.
Qed.

Lemma handleEdits_steps es : ∀ st st0,
  excludedAuthors st = excludedAuthors st0 → consistent st →
  consistent (foldl handleEdit st es)
  ∧ excludedAuthors (foldl handleEdit st es)
    = excludedAuthors (foldl applyEdit st0 es)
  ∧ allPrs (foldl handleEdit st es) = allPrs st
  ∧ loading (foldl handleEdit st es) = loading st
  ∧ error (foldl handleEdit st es) = error st.
Proof.
  induction es as [|e es IH]; intros st st0 Heq Hc; simpl; [done|].
  destruct (handleEdit_step st e Hc) as (Hc' & HE & HA & HL & Herr).
  destruct (IH (handleEdit st e) (applyEdit st0 e)) as (? & ? & ? & ? & ?).
  - rewrite HE. by apply excludedAuthors_applyEdit.
  - done.
  - split_and!; congruence.
Qed.

(** X12.  Edits never refetch: through any sequence of edits, each followed by
    the effect when it is due, the accumulated list, the loading flag and
    the error stay as they were, the excluded list is the one the edits
    alone produce, and the shown list stays the filter of the accumulated
    one. *)
Theorem edits_keep_shown_consistent (es : list edit) (st : HomeScreen) :
  consistent st →
  consistent (foldl handleEdit st es)
  ∧ excludedAuthors (foldl handleEdit st es)
    = excludedAuthors (applyEdits es st)
  ∧ allPrs (foldl handleEdit st es) = allPrs st
  ∧ loading (foldl handleEdit st es) = loading st
  ∧ error (foldl handleEdit st es) = error st.
Proof.
  intros Hc. by apply handleEdits_steps.
Qed.

Lemma edits_keep_shown_consistent_witness :
  consistent
    (foldl handleEdit (filterPRs (setAllPrs (samplePage 0 3) initialState))
       [Add (lit "octocat"); Remove (lit "Kudo"); Add (lit " ")])
  ∧ allPrs
      (foldl handleEdit (filterPRs (setAllPrs (samplePage 0 3) initialState))
         [Add (lit "octocat"); Remove (lit "Kudo"); Add (lit " ")])
    = samplePage 0 3.
Proof.
  destruct (edits_keep_shown_consistent
              [Add (lit "octocat"); Remove (lit "Kudo"); Add (lit " ")]
              (filterPRs (setAllPrs (samplePage 0 3) initialState)))
    as (H1 & _ & H2 & _).
  - reflexivity.
  - split; [exact H1|exact H2].
Defined.

Lemma readd_excluded s st :
  tidy s →
  excludedAuthors (add s (remove s st))
  = filter (λ a, a ≠ s) (excludedAuthors st) ++ [s].
Proof.
  intros [Hne Htrim].
  rewrite excludedAuthors_add_fresh, Htrim; [done|by rewrite Htrim|].
  rewrite Htrim, elem_of_remove. by intros [_ ?].
Qed.

(** X6.  Removing a login and adding it again (a tidy one, as every entry is)
    puts it at the end of the list with the other entries in place; when
    it was excluded before, the shown list is the same as before. *)
Theorem readd_moves_last (st : HomeScreen) (s : jsstring) :
  tidy s →
  excludedAuthors (add s (remove s st))
  = filter (λ a, a ≠ s) (excludedAuthors st) ++ [s]
  ∧ (s ∈ excludedAuthors st →
     prs (filterPRs (add s (remove s st))) = prs (filterPRs st)).
Proof.
  intros Hs. split; [by apply readd_excluded|]. intros Hin.
  rewrite shown_add, (filterPRs_excluded st), readd_excluded by done.
  apply (shown_ext st). intros x.
  rewrite elem_of_app, list_elem_of_filter, list_elem_of_singleton.
  destruct (decide (x = s)) as [->|]; tauto.
Qed.

Lemma readd_moves_last_witness :
  excludedAuthors (add (lit "jonsamp") (remove (lit "jonsamp") initialState))
  = drop 1 (Config.excludedAuthors config) ++ [lit "jonsamp"]
  ∧ prs (filterPRs (add (lit "jonsamp")
                      (remove (lit "jonsamp")
                         (setAllPrs (samplePage 0 3) initialState))))
    = prs (filterPRs (setAllPrs (samplePage 0 3) initialState)).
Proof.
  split.
  - destruct (readd_moves_last initialState (lit "jonsamp")) as (H & _).
    + split; [discriminate|reflexivity].
    + rewrite H. vm_compute. reflexivity.
  - destruct (readd_moves_last (setAllPrs (samplePage 0 3) initialState)
                (lit "jonsamp")) as (_ & H).
    + split; [discriminate|reflexivity].
    + apply H. apply (bool_decide_unpack _). vm_compute. exact I.
Defined.

(** ** The states of a run *)

Section RunStates.

Context (cfg : Config.t) (env : Env).

Lemma awaited_advance_states ds : ∀ w page acc,
  awaited (advance cfg env w page acc ds)
  = awaited w
    ++ ((λ j : nat,
           (pageRequest cfg env (page + N.of_nat j),
            match j with
            | O => screen w
            | S _ =>
                setLoading false
                  (setAllPrs (acc ++ concat (take j ds)) (screen w))
            end)) <$> seq 0 (length ds)).
Proof.
  induction ds as [|d ds IH]; intros w page acc.
  { simpl. by rewrite app_nil_r. }
  cbn [advance length seq]. rewrite IH. cbn [resume awaited screen].
  rewrite <- app_assoc, fmap_cons, N.add_0_r. do 2 f_equal.
  rewrite <- fmap_S_seq, <- list_fmap_compose.
  apply list_fmap_ext. intros _ j _. cbn [compose]. f_equal.
  - f_equal. lia.
  - destruct j as [|j]; cbn [take concat].
    + by rewrite app_nil_r.
    + by rewrite <- app_assoc.
Qed.

Lemma states_advance st ds :
  (awaited (advance cfg env (started st) 1 [] ds)).*2
  = pending st ds <$> seq 0 (length ds).
Proof.
  rewrite awaited_advance_states. cbn [started awaited app].
  rewrite <- list_fmap_compose. apply list_fmap_ext.
  intros _ [|j] _; done.
Qed.

Lemma screen_advance_pending st ds :
  screen (advance cfg env (started st) 1 [] ds) = pending st ds (length ds).
Proof.
  rewrite screen_advance. destruct ds as [|d ds]; [done|].
  cbn [pending length]. by rewrite take_ge by (simpl; lia).
Qed.

Lemma states_suspend_advance st ds page :
  (awaited (suspend cfg env (advance cfg env (started st) 1 [] ds) page)).*2
  = pending st ds <$> seq 0 (S (length ds)).
Proof.
  cbn [suspend awaited]. rewrite fmap_app, states_advance.
  rewrite seq_S, fmap_app. cbn [fmap list_fmap snd]. simpl.
  by rewrite screen_advance_pending.
Qed.

(** The shape of a run with the states seen while its pages are pending
    and the state it ends in. *)
Lemma run_states st :
  ∃ ds,
    serves cfg env ds ∧ Forall (λ d, d ≠ []) ds
    ∧ (length ds ≤ length (requests (invoke cfg env st)) ≤ S (length ds))%nat
    ∧ (awaited (invoke cfg env st)).*2
      = pending st ds <$> seq 0 (length (requests (invoke cfg env st)))
    ∧ (∃ message,
         screen (invoke cfg env st)
         = setLoading false
             (setError message (pending st ds (length ds)))
         ∨ screen (invoke cfg env st)
           = setLoading false
               (setAllPrs (concat ds) (pending st ds (length ds)))).
Proof.
  destruct (run_shape cfg env)
    as (ds & Hs & Hne & [Hcap|[Hlt [Hempty|[e Hfail]]]]);
    exists ds; (split; [done|]); (split; [done|]).
  - destruct (cap_outcome cfg env st ds) as (Hreq & _); [done..|].
    rewrite Hreq, length_fmap, length_pagesFrom.
    rewrite (invoke_cap cfg env st ds) by done. cbn [awaited screen].
    rewrite states_advance, screen_advance_pending.
    split_and!; [lia|lia|done|]. exists None. by right.
  - destruct (empty_outcome cfg env st ds) as (Hreq & _); [done..|].
    rewrite Hreq, length_fmap, length_pagesFrom.
    rewrite (invoke_empty cfg env st ds) by done. cbn [awaited screen].
    rewrite states_suspend_advance, screen_advance_pending.
    split_and!; [lia|lia|done|]. exists None. by right.
  - destruct (fails_outcome cfg env st ds e) as (Hreq & _); [done..|].
    rewrite Hreq, length_fmap, length_pagesFrom.
    rewrite (invoke_fails cfg env st ds e) by done. cbn [awaited screen].
    rewrite states_suspend_advance, screen_advance_pending.
    split_and!; [lia|lia|done|]. exists (Some (errorMessage e)). by left.
Qed.

End RunStates.

Section RunProperties.

Context (cfg : Config.t) (env : Env).

Lemma NoDup_pagesFrom count : ∀ page, NoDup (pagesFrom page count).
Proof.
  induction count as [|count IH]; intros page; simpl; [constructor|].
  constructor; [|apply IH]. rewrite elem_of_pagesFrom. lia.
Qed.

(** X13.  A run never issues the same request twice: its requests, one per page
    from page 1 on, are pairwise different. *)
Theorem requests_distinct (st : HomeScreen) :
  NoDup (requests (invoke cfg env st))
  ∧ NoDup (url <$> requests (invoke cfg env st)).
Proof.
  destruct (requests_invoke cfg env st) as (m & _ & ->).
  assert (NoDup (url <$> (pageRequest cfg env <$> pagesFrom 1 m))) as Hurl.
  { rewrite <- list_fmap_compose.
    apply NoDup_fmap_2_strong; [|apply NoDup_pagesFrom].
    intros p q _ _ H. apply (pageRequest_inj cfg env).
    unfold pageRequest. by f_equal. }
  split; [|done]. by apply NoDup_fmap_1 in Hurl.
Qed.

(** X14.  A run ends without error exactly when every page it requested was
    answered with a success status and a body that parses. *)
Theorem error_iff_page_fails (st : HomeScreen) :
  error (screen (invoke cfg env st)) = None
  ↔ ∀ page, pageRequest cfg env page ∈ requests (invoke cfg env st) →
            ∃ d, answers cfg env page d.
Proof.
  destruct (run_shape cfg env)
    as (ds & Hs & Hne & [Hcap|[Hlt [Hempty|[e Hfail]]]]).
  - destruct (cap_outcome cfg env st ds) as (-> & -> & _); [done..|].
    split; [intros _|done]. intros page [H1 H2]%elem_of_page_requests.
    destruct (lookup_lt_is_Some_2 ds (N.to_nat (page - 1))) as [d Hd]; [lia|].
    exists d. replace page with (1 + N.of_nat (N.to_nat (page - 1))) by lia.
    by apply Hs.
  - destruct (empty_outcome cfg env st ds) as (-> & -> & _); [done..|].
    split; [intros _|done]. intros page [H1 H2]%elem_of_page_requests.
    destruct (decide (page = 1 + N.of_nat (length ds))) as [->|];
      [by exists []|].
    destruct (lookup_lt_is_Some_2 ds (N.to_nat (page - 1))) as [d Hd]; [lia|].
    exists d. replace page with (1 + N.of_nat (N.to_nat (page - 1))) by lia.
    by apply Hs.
  - destruct (fails_outcome cfg env st ds e) as (-> & -> & _); [done..|].
    split; [done|]. intros Hall.
    destruct (Hall (1 + N.of_nat (length ds))) as [d Hd].
    { apply elem_of_page_requests. lia. }
    by destruct (answers_not_fails cfg env (1 + N.of_nat (length ds)) d e).
Qed.

(** X15.  When the transport fails on page [k], or its body does not parse,
    after pages [1 .. k-1] resolved with non-empty bodies, the run ends
    after [k] requests with the message of the thrown [Error], or with
    ["An error occurred"] when what was thrown is no [Error]; the pages
    before [k] stay accumulated (before page 1: what was accumulated
    earlier). *)
Theorem transport_failure (st : HomeScreen) ds e :
  serves cfg env ds → Forall (λ d, d ≠ []) ds →
  (length ds < N.to_nat (Config.maxPages cfg))%nat →
  fetch env (pageRequest cfg env (1 + N.of_nat (length ds))) = Rejected e
  ∨ (∃ r, fetch env (pageRequest cfg env (1 + N.of_nat (length ds)))
          = Fulfilled r
          ∧ ok r = true ∧ json r = Rejected e) →
  requests (invoke cfg env st)
    = pageRequest cfg env <$> pagesFrom 1 (S (length ds))
  ∧ error (screen (invoke cfg env st))
    = Some match e with
           | ErrorObject message => message
           | OtherValue => lit "An error occurred"
           end
  ∧ allPrs (screen (invoke cfg env st))
    = match ds with [] => allPrs st | _ => concat ds end
  ∧ loading (screen (invoke cfg env st)) = false.
Proof.
  intros Hs Hne Hlt Hfail. apply fails_outcome; [done..|].
  destruct Hfail as [?|?]; [by left|by right; right].
Qed.

(** X16.  With the page cap at zero a run issues no request and ends without
    error, and the accumulated list is replaced by the empty one. *)
Theorem run_without_pages (st : HomeScreen) :
  Config.maxPages cfg = 0 →
  requests (invoke cfg env st) = []
  ∧ allPrs (screen (invoke cfg env st)) = []
  ∧ error (screen (invoke cfg env st)) = None
  ∧ loading (screen (invoke cfg env st)) = false.
Proof.
  intros Hmax.
  destruct (cap_outcome cfg env st []) as (? & ? & ? & ?);
    [done|constructor|by rewrite Hmax|done].
Qed.

Lemma visible_frame st :
  Forall (λ S, excludedAuthors S = excludedAuthors st
               ∧ newAuthor S = newAuthor st
               ∧ showSettings S = showSettings st)
         (visible (invoke cfg env st)).
Proof.
  destruct (run_states cfg env st)
    as (ds & _ & _ & _ & Hstates & message & Hfinal).
  unfold visible. apply Forall_app. split.
  - rewrite Hstates. apply Forall_fmap, Forall_forall. by intros [|j] _.
  - apply Forall_singleton.
    destruct Hfinal as [-> | ->]; by destruct (length ds).
Qed.

(** X17.  A run leaves the excluded list, the text field and the settings
    flag alone, in every state logged during it and in the state it ends
    in. *)
Theorem run_frame (st : HomeScreen) :
  Forall (λ S, excludedAuthors S = excludedAuthors st
               ∧ newAuthor S = newAuthor st
               ∧ showSettings S = showSettings st)
         (visible (invoke cfg env st))
  ∧ (0 < length (visible (invoke cfg env st)))%nat.
Proof.
  split; [apply visible_frame|]. rewrite length_visible. lia.
Qed.

(** X18.  While page 1 of a run is pending the component shows the spinner and
    no error, whatever it showed before (so also on a retry from the error
    screen); while any later page is pending it shows the list screen,
    with at least one record accumulated and no error. *)
Theorem spinner_until_first_page (st : HomeScreen) :
  (0 < Config.maxPages cfg →
   ∃ S, head (visible (invoke cfg env st)) = Some S
        ∧ render S = Loading ∧ error S = None)
  ∧ Forall (λ S, render S = listing S ∧ error S = None ∧ allPrs S ≠ [])
           (drop 1 (awaited (invoke cfg env st)).*2).
Proof.
  destruct (run_states cfg env st)
    as (ds & _ & Hne & Hlen & Hstates & _).
  split.
  - intros Hmax. pose proof (first_request cfg env st Hmax) as Hhead.
    unfold visible. rewrite Hstates.
    destruct (requests (invoke cfg env st)) as [|req reqs]; [done|].
    by exists (pending st ds 0).
  - rewrite Hstates, <- fmap_drop. apply Forall_fmap, Forall_forall.
    intros j [i Hj]%list_elem_of_lookup.
    rewrite lookup_drop in Hj. apply lookup_seq in Hj as [-> Hi].
    simpl. split_and!; [done..|].
    destruct Hne as [|d ds' Hd _]; [simpl in Hlen; lia|].
    simpl. by destruct d.
Qed.

End RunProperties.

Section Screens.

Context (cfg : Config.t) (env : Env).

(** X20.  A run never ends on the spinner, and it ends on the error screen
    exactly when it stored an error message that is not empty. *)
Theorem render_after_run (st : HomeScreen) :
  render (screen (invoke cfg env st)) ≠ Loading
  ∧ ∀ message,
      render (screen (invoke cfg env st)) = Failure message
      ↔ error (screen (invoke cfg env st)) = Some message ∧ message ≠ [].
Proof.
  destruct (run_ignores_prior_state cfg env st st) as (_ & _ & Hl).
  unfold render, listing. rewrite Hl.
  destruct (error (screen (invoke cfg env st))) as [m|]; [|split; [done|]].
  - destruct (truthy m) eqn:Hm.
    + apply truthy_spec in Hm. split; [done|]. intros message.
      split; [by intros [= <-]|by intros [[= <-] _]].
    + apply truthy_false in Hm as ->. split; [done|]. intros message.
      split; [done|]. by intros [[= <-] ?].
  - intros message. split; [done|by intros [? _]].
Qed.

(** X21.  A status failure on page [k] puts the component on the error screen
    with the status message, although the pages before [k] stay in the
    accumulated list. *)
Theorem status_error_screen (st : HomeScreen) ds r :
  serves cfg env ds → Forall (λ d, d ≠ []) ds →
  (length ds < N.to_nat (Config.maxPages cfg))%nat →
  fetch env (pageRequest cfg env (1 + N.of_nat (length ds))) = Fulfilled r →
  ok r = false →
  render (screen (invoke cfg env st))
    = Failure (lit "GitHub API error: " ++ toString (status r) ++ lit " "
               ++ statusText r)
  ∧ allPrs (screen (invoke cfg env st))
    = match ds with [] => allPrs st | _ => concat ds end.
Proof.
  intros Hs Hne Hlt Hf Hok.
  destruct (fails_outcome cfg env st ds (statusError r))
    as (_ & Herr & Hall & Hl); [done..| |].
  { right; left. by exists r. }
  split; [|done]. unfold render. by rewrite Hl, Herr.
Qed.

(** X22.  A failure whose message is the empty string is not shown: the run
    stores the empty message and the component renders the list screen. *)
Theorem empty_message_hidden (st : HomeScreen) ds e :
  serves cfg env ds → Forall (λ d, d ≠ []) ds →
  (length ds < N.to_nat (Config.maxPages cfg))%nat →
  fails cfg env (1 + N.of_nat (length ds)) e →
  errorMessage e = [] →
  error (screen (invoke cfg env st)) = Some []
  ∧ render (screen (invoke cfg env st)) = listing (screen (invoke cfg env st)).
Proof.
  intros Hs Hne Hlt Hfail He.
  destruct (fails_outcome cfg env st ds e) as (_ & Herr & _ & Hl); [done..|].
  rewrite He in Herr. split; [done|]. unfold render. by rewrite Hl, Herr.
Qed.

Lemma concat_take_prefix {A} (ds : list (list A)) (a b : nat) :
  (a ≤ b)%nat → concat (take a ds) `prefix_of` concat (take b ds).
Proof.
  intros Hab. rewrite <- (take_drop a (take b ds)), take_take.
  rewrite Nat.min_l by done. rewrite concat_app. by apply prefix_app_r.
Qed.

Lemma visible_allPrs st :
  ∃ ds, ∀ (i : nat) S,
    (1 ≤ i)%nat → visible (invoke cfg env st) !! i = Some S →
    (S = screen (invoke cfg env st)
     ∧ i = length (requests (invoke cfg env st)) ∧ ds = [])
    ∨ (ds ≠ [] ∧ allPrs S = concat (take i ds)).
Proof.
  destruct (run_states cfg env st)
    as (ds & _ & _ & Hlen & Hstates & message & Hfinal).
  exists ds. intros i S Hi. unfold visible. rewrite Hstates.
  intros [Hin|[Hlast Hin]]%lookup_app_Some.
  - apply list_lookup_fmap_Some in Hin as (j & -> & [-> Hj]%lookup_seq).
    right. destruct i as [|i]; [lia|]. split; [|done].
    intros ->. simpl in Hlen. lia.
  - rewrite length_fmap, length_seq in Hlast, Hin.
    apply list_lookup_singleton_Some in Hin as [Hi' <-].
    assert (i = length (requests (invoke cfg env st))) as -> by lia.
    destruct ds as [|d ds]; [by left|right]. split; [done|].
    rewrite (take_ge (d :: ds)) by lia.
    destruct Hfinal as [-> | ->]; simpl; by rewrite ?firstn_all.
Qed.

(** X19.  As the pages of a run come in, records are only appended: of two
    states seen after page 1, the later one's accumulated list starts
    with the earlier one's, and so does what the filter shows of it. *)
Theorem shown_grows_by_appending (st : HomeScreen) (i j : nat) Si Sj :
  (1 ≤ i ≤ j)%nat →
  visible (invoke cfg env st) !! i = Some Si →
  visible (invoke cfg env st) !! j = Some Sj →
  allPrs Si `prefix_of` allPrs Sj
  ∧ prs (filterPRs Si) `prefix_of` prs (filterPRs Sj).
Proof.
  intros Hij Hi Hj.
  assert (allPrs Si `prefix_of` allPrs Sj) as [k Hk].
  { destruct (visible_allPrs st) as (ds & Hds).
    destruct (Hds i Si) as [(-> & -> & ->)|[Hne ->]]; [lia|done| |].
    - destruct (Hds j Sj) as [(-> & _)|[? _]]; [lia|done|done|done].
    - destruct (Hds j Sj) as [(_ & _ & ->)|[_ ->]]; [lia|done|done|].
      apply concat_take_prefix. lia. }
  split; [by exists k|].
  pose proof (visible_frame cfg env st) as Hframe.
  rewrite Forall_forall in Hframe.
  destruct (Hframe Si) as (HEi & _); [by eapply list_elem_of_lookup_2|].
  destruct (Hframe Sj) as (HEj & _); [by eapply list_elem_of_lookup_2|].
  rewrite !shown_eq, HEi, HEj, Hk, filter_app. by apply prefix_app_r.
Qed.

End Screens.

(** ** Assignee and reviewer rows *)

(** X23.  In a row of assignees or reviewers every link goes to the user's page
    and shows the login; all but the last are followed by [", "], the
    last by nothing. *)
Theorem userLinks_separators (us : list User.t) (u : User.t) :
  text <$> userLinks (us ++ [u])
  = ((λ v, User.login v ++ lit ", ") <$> us) ++ [User.login u]
  ∧ href <$> userLinks (us ++ [u])
    = (λ v, lit "https://github.com/" ++ User.login v) <$> (us ++ [u])
  ∧ length (userLinks us) = length us.
Proof.
  unfold userLinks. split_and!; [| |apply length_imap].
  - apply list_eq. intros i.
    rewrite list_lookup_fmap, list_lookup_imap, length_app. simpl.
    destruct (decide (i < length us)%nat) as [Hi|Hi].
    + rewrite !lookup_app_l by (by rewrite ?length_fmap).
      rewrite list_lookup_fmap. destruct (us !! i) as [v|]; [|done]. simpl.
      by replace (Z.of_nat i <? Z.of_nat (length us + 1) - 1)%Z with true
        by (symmetry; apply Z.ltb_lt; lia).
    + rewrite !lookup_app_r by (rewrite ?length_fmap; lia).
      rewrite length_fmap.
      destruct (i - length us)%nat as [|n] eqn:Hn; [|done]. simpl.
      replace (Z.of_nat i <? Z.of_nat (length us + 1) - 1)%Z with false
        by (symmetry; apply Z.ltb_ge; lia).
      by rewrite app_nil_r.
  - apply list_eq. intros i.
    rewrite !list_lookup_fmap, list_lookup_imap.
    by destruct ((us ++ [u]) !! i).
Qed.

(** ** More concrete runs *)

Lemma transport_failure_witness :
  requests (invoke config dropsAfterFirstPage initialState)
    = pageRequest config dropsAfterFirstPage <$> [1; 2]
  ∧ error (screen (invoke config dropsAfterFirstPage initialState))
    = Some (lit "An error occurred")
  ∧ allPrs (screen (invoke config dropsAfterFirstPage initialState))
    = samplePage 0 100.
Proof.
  destruct (transport_failure config dropsAfterFirstPage initialState
              [samplePage 0 100] OtherValue) as (Hreq & Herr & Hall & _).
  - intros [|i] d Hi; simplify_eq/=. answered_with (samplePage 0 100).
  - repeat constructor. discriminate.
  - vm_compute. lia.
  - left. vm_compute. reflexivity.
  - split_and!; [exact Hreq|exact Herr|].
    rewrite Hall. vm_compute. reflexivity.
Defined.

Lemma run_without_pages_witness :
  requests (invoke noPages endless afterFailedRun) = []
  ∧ allPrs (screen (invoke noPages endless afterFailedRun)) = []
  ∧ allPrs afterFailedRun = [samplePR 7].
Proof.
  destruct (run_without_pages noPages endless afterFailedRun)
    as (Hreq & Hall & _).
  - reflexivity.
  - split_and!; [exact Hreq|exact Hall|]. vm_compute. reflexivity.
Defined.

Lemma status_error_screen_witness :
  render (screen (invoke config forbiddenOnPage2 initialState))
    = Failure (lit "GitHub API error: 403 Forbidden")
  ∧ allPrs (screen (invoke config forbiddenOnPage2 initialState))
    = samplePage 0 100.
Proof.
  destruct (status_error_screen config forbiddenOnPage2 initialState
              [samplePage 0 100]
              {| status := 403; statusText := lit "Forbidden";
                 json := Rejected (ErrorObject (lit "Unexpected token")) |})
    as (Hrender & Hall).
  - intros [|i] d Hi; simplify_eq/=. answered_with (samplePage 0 100).
  - repeat constructor. discriminate.
  - vm_compute. lia.
  - vm_compute. reflexivity.
  - reflexivity.
  - split.
    + rewrite Hrender. vm_compute. reflexivity.
    + rewrite Hall. vm_compute. reflexivity.
Defined.

Lemma empty_message_hidden_witness :
  error (screen (invoke config silent initialState)) = Some []
  ∧ render (screen (invoke config silent initialState)) = Listing 0 0 None [].
Proof.
  destruct (empty_message_hidden config silent initialState []
              (ErrorObject [])) as (Herr & Hrender).
  - intros i d Hi. simplify_eq/=.
  - constructor.
  - vm_compute. lia.
  - by left.
  - reflexivity.
  - split; [exact Herr|]. rewrite Hrender. vm_compute. reflexivity.
Defined.

Lemma shown_grows_by_appending_witness :
  samplePage 0 100 `prefix_of` samplePage 0 100 ++ samplePage 100 100
  ∧ prs (filterPRs (pending initialState
                      [samplePage 0 100; samplePage 100 100] 1))
    `prefix_of`
    prs (filterPRs (pending initialState
                      [samplePage 0 100; samplePage 100 100] 2)).
Proof.
  destruct (shown_grows_by_appending config threePages initialState 1 2
              (pending initialState [samplePage 0 100; samplePage 100 100] 1)
              (pending initialState [samplePage 0 100; samplePage 100 100] 2))
    as (Hall & Hshown).
  - lia.
  - vm_compute. reflexivity.
  - vm_compute. reflexivity.
  - split; [|exact Hshown]. revert Hall. vm_compute. exact (λ H, H).
Defined.

Lemma spinner_until_first_page_witness :
  (∃ S, head (visible (invoke config threePages afterFailedRun)) = Some S
        ∧ render S = Loading ∧ error S = None)
  ∧ length (drop 1 (awaited (invoke config threePages afterFailedRun)).*2)
    = 2%nat.
Proof.
  destruct (spinner_until_first_page config threePages afterFailedRun)
    as (H & _).
  split; [by apply H|]. vm_compute. reflexivity.
Defined.
